(** * Resource reconciliation of [scripts/merge-and-update.js]

    A shallow embedding of the fuzzy matcher that decides whether a freshly
    generated resource is one that was already on the list, and of the loop
    that updates the [weeks_on_list] counters and the three tallies.  The
    string clean-up that [scripts/generate-resources.js] applies to the
    answer of the model before parsing it is embedded as well.

    Conventions of the embedding.
    - A JavaScript string is the list of its UTF-16 code units.
    - A value read out of a parsed JSON document is a [jsval]; a property
      that is absent reads as [JUndefined].
    - A call that can throw returns a [result]; the only exception the
      script can raise inside the matcher is the [TypeError] of calling
      [toLowerCase] on something that is not a string.
    - A resource is an object; a property it lacks reads as [JUndefined].
      The run on arrays of resources is [mergeAndUpdateResources]; the run
      on arrays that also hold [null], numbers, strings or booleans is
      [mergeAndUpdateElements], which agrees with it on arrays of objects.
    - A number of a document is a double, kept as the rational it stands
      for (or an infinity); [x + 1] is the exact sum rounded to the nearest
      double.
    - The similarity levels and the combined scores are the decimal literals
      of the script, kept as rationals; every comparison the script makes
      between them is a comparison of such literals, on which doubles and
      rationals agree.  The word overlap is the quotient of two set sizes
      and is kept as the exact rational: the rounded quotient [i / u] of the
      host compares with the doubles 0.7 and 0.5 as [i / u] compares with
      7/10 and 1/2, because rounding is monotone and [i / u] differs from
      7/10 or from 1/2 by at least [1 / (10 u)] when it differs at all, far
      more than the spacing of doubles for any number of words a string can
      hold.
    - The lower-casing of the host ([String.prototype.toLowerCase], that is
      the Unicode case table) is not part of the repository; it is a
      parameter of the development.
    - A [replace] with a regular expression is the left-to-right scan the
      host performs for that expression, written as a recursive function.
      [JSON.parse], the file system and the call of the API are not
      embedded. *)

From Stdlib Require Import ZArith NArith QArith Lqa List String Ascii Lia.
From stdpp Require Import base list gmap sets.

Local Open Scope Q_scope.
Local Open Scope nat_scope.

(** ** Values and exceptions *)

Definition jsstring : Type := list N.

(** The code units of an ASCII literal of the script. *)
Definition str (s : string) : jsstring :=
  map N_of_ascii (list_ascii_of_string s).

(** A number of a parsed document is a double: a rational kept in lowest
    terms, or an infinity when the literal was out of range.  [JSON.parse]
    never gives NaN, and nothing the script does tells the two zeros
    apart. *)
Inductive number : Type :=
  | Finite (q : Q)
  | Infinite (negative : bool).

Inductive jsval : Type :=
  | JUndefined                (* the property is absent *)
  | JNull
  | JBool (b : bool)
  | JNumber (x : number)
  | JStr (s : jsstring)
  | JObj (repr : jsstring).   (* a nested object or array, with the string it
                                 converts to *)

(** The number whose value is the integer [n]. *)
Definition JNum (n : Z) : jsval := JNumber (Finite (inject_Z n)).

(** [!v] is [negb (truthy v)]. *)
Definition truthy (v : jsval) : bool :=
  match v with
  | JUndefined | JNull => false
  | JBool b => b
  | JNumber (Finite q) => negb (Qnum q =? 0)%Z
  | JNumber (Infinite _) => true
  | JStr s => negb (bool_decide (s = []))
  | JObj _ => true
  end.

(** *** Addition of the host

    [x + 1] on doubles is the exact sum rounded to the nearest double, a
    tie going to the one with the even significand (IEEE 754 binary64). *)

(** [floor (log2 (a / b))] for positive [a] and [b]. *)
Definition ilog2 (a b : Z) : Z :=
  let d := (Z.log2 a - Z.log2 b)%Z in
  if (b * 2 ^ Z.max d 0 <=? a * 2 ^ Z.max (- d) 0)%Z then d else (d - 1)%Z.

(** [n / d] rounded to the nearest integer, a tie going to the even one,
    for [0 <= n] and [0 < d]. *)
Definition roundHalfEven (n d : Z) : Z :=
  let k := (n / d)%Z in
  let r := (n mod d)%Z in
  if (2 * r <? d)%Z then k
  else if (d <? 2 * r)%Z then (k + 1)%Z
  else if Z.even k then k else (k + 1)%Z.

(** The double nearest to the rational [q].  With [e] the binary exponent
    of [q], not below that of the subnormal numbers, the doubles around
    [q] are the multiples of [2 ^ (e - 52)], written [2 ^ up / 2 ^ down];
    a result of [2 ^ 1024] or more is an infinity. *)
Definition roundDouble (q : Q) : number :=
  let a := Z.abs (Qnum q) in
  let b := Z.pos (Qden q) in
  if (a =? 0)%Z then Finite 0
  else
    let e := Z.max (ilog2 a b) (-1022) in
    let up := Z.max (e - 52) 0 in
    let down := Z.max (52 - e) 0 in
    let m := roundHalfEven (a * 2 ^ down) (b * 2 ^ up) in
    if (1024 <=? e)%Z || (e =? 1023)%Z && (m =? 2 ^ 53)%Z
    then Infinite (Qnum q <? 0)%Z
    else Finite (Qred (Qmake (Z.sgn (Qnum q) * m * 2 ^ up)
                             (Z.to_pos (2 ^ down)))).

(** [x + 1] *)
Definition addOne (x : number) : number :=
  match x with
  | Finite q => roundDouble (q + 1)
  | Infinite negative => Infinite negative
  end.

Inductive exn : Type := TypeError.

Inductive result (A : Type) : Type :=
  | Ok (a : A)
  | Throw (e : exn).
Arguments Ok {A} a.
Arguments Throw {A} e.

#[global] Instance result_ret : MRet result := fun A a => Ok a.
#[global] Instance result_bind : MBind result := fun A B f m =>
  match m with
  | Ok a => f a
  | Throw e => Throw e
  end.

(** A loop body run over the elements of an array, the first exception
    ending the loop ([Array.prototype.forEach] with a throwing callback). *)
Fixpoint forEach {St A : Type} (body : St -> A -> result St) (l : list A)
    (s : St) : result St :=
  match l with
  | [] => Ok s
  | x :: l' => s' ← body s x; forEach body l' s'
  end.

(** ** String primitives of the host *)

Definition ch_space : N := 32%N.
Definition ch_slash : N := 47%N.

(** [WhiteSpace] and [LineTerminator] of ECMAScript: what [trim] strips and
    what [\s] matches. *)
Definition isWhiteSpace (c : N) : bool :=
  ((9 <=? c) && (c <=? 13) || (c =? 32) || (c =? 160) || (c =? 5760)
   || (8192 <=? c) && (c <=? 8202) || (c =? 8232) || (c =? 8233)
   || (c =? 8239) || (c =? 8287) || (c =? 12288) || (c =? 65279))%N.

(** The class [[:\-—–]]: colon, hyphen, em dash (U+2014), en dash (U+2013). *)
Definition isSeparator (c : N) : bool :=
  ((c =? 58) || (c =? 45) || (c =? 8212) || (c =? 8211))%N.

Fixpoint dropWhile {A : Type} (p : A -> bool) (l : list A) : list A :=
  match l with
  | [] => []
  | x :: l' => if p x then dropWhile p l' else l
  end.

Definition dropWhileEnd {A : Type} (p : A -> bool) (l : list A) : list A :=
  rev (dropWhile p (rev l)).

(** [s.trim()] *)
Definition trim (s : jsstring) : jsstring :=
  dropWhileEnd isWhiteSpace (dropWhile isWhiteSpace s).

(** [s.startsWith(p)], returning what follows the prefix. *)
Fixpoint stripPrefix (p s : jsstring) : option jsstring :=
  match p, s with
  | [], _ => Some s
  | _ :: _, [] => None
  | a :: p', b :: s' => if (a =? b)%N then stripPrefix p' s' else None
  end.

Definition startsWith (s p : jsstring) : bool :=
  match stripPrefix p s with Some _ => true | None => false end.

(** [s.includes(t)] *)
Fixpoint includes (s t : jsstring) : bool :=
  startsWith s t ||
  match s with
  | [] => false
  | _ :: s' => includes s' t
  end.

(** [s.split(sep)] for a separator of one code unit: never empty, and the
    array of one empty string on the empty string. *)
Fixpoint split (sep : N) (s : jsstring) : list jsstring :=
  match s with
  | [] => [[]]
  | c :: s' =>
      if (c =? sep)%N then [] :: split sep s'
      else match split sep s' with
           | w :: ws => (c :: w) :: ws
           | [] => [[c]]
           end
  end.

(** [s.replace(/\s+/g, " ")]: every maximal run of white space becomes one
    space; [inRun] records that the previous code unit was white space. *)
Fixpoint collapseWhiteSpace (inRun : bool) (s : jsstring) : jsstring :=
  match s with
  | [] => []
  | c :: s' =>
      if isWhiteSpace c
      then (if inRun then collapseWhiteSpace true s'
            else ch_space :: collapseWhiteSpace true s')
      else c :: collapseWhiteSpace false s'
  end.

(** ** Sets of the host, in insertion order *)

Section JsSet.
Context {A : Type} `{EqDecision A}.

Definition Set_has (s : list A) (x : A) : bool := bool_decide (x ∈ s).

Definition Set_add (s : list A) (x : A) : list A :=
  if Set_has s x then s else s ++ [x].

(** [new Set(l)] *)
Definition new_Set (l : list A) : list A := foldl Set_add [] l.

(** [s.size] *)
Definition Set_size (s : list A) : nat := length s.
End JsSet.

(** ** Numbers of the scoring *)

Definition Qgtb (a b : Q) : bool := negb (Qle_bool a b).
Definition Qgeb (a b : Q) : bool := Qle_bool b a.

(** ** Data model of the two documents *)

Record Resource : Type := mkResource {
  title : jsval;
  source : jsval;
  type : jsval;
  weeks_on_list : jsval
}.

(** [r.weeks_on_list = w] *)
Definition set_weeks_on_list (r : Resource) (w : jsval) : Resource :=
  {| title := title r; source := source r; type := type r;
     weeks_on_list := w |}.

Inductive MatchType : Type := MatchNone | MatchExact | MatchFuzzy | MatchWeak.

(** The three variables the inner loop updates. *)
Record Candidate : Type := mkCandidate {
  bestMatch : option Resource;
  bestScore : Q;
  matchType : MatchType
}.

(** The two parsed documents and the three counters.  The documents come
    from two separate [JSON.parse] calls, so no object is shared between
    the two arrays, nor between two positions of one array. *)
Record State : Type := mkState {
  currentResourcesArray : list Resource;
  newResources : list Resource;
  exactMatched : nat;
  fuzzyMatched : nat;
  newCount : nat
}.

(** ** The clean-up of the model's answer

    Between the answer of the API and [JSON.parse], [generateResources] of
    [scripts/generate-resources.js] trims the text, deletes the Markdown
    fences, cuts out what lies between the first opening and the last
    closing brace and deletes trailing commas.  [JSON.parse] and the two
    repairs tried after a failed parse are not part of this development. *)

Definition ch_newline : N := 10%N.
Definition ch_comma : N := 44%N.
Definition ch_rbracket : N := 93%N.
Definition ch_backtick : N := 96%N.
Definition ch_lbrace : N := 123%N.
Definition ch_rbrace : N := 125%N.

Definition fence : jsstring := str "```".
Definition fenceJson : jsstring := str "```json".

(** [s.replace(/<pat>\n?/g, [])] for a literal, non-empty [pat]: the scan
    goes from left to right; where [pat] starts, it and a line feed right
    behind it are deleted and the scan resumes behind them.  [skip] counts
    the code units of the current match that are still to be passed over. *)
Fixpoint removeAll (pat : jsstring) (skip : nat) (s : jsstring) : jsstring :=
  match s with
  | [] => []
  | c :: s' =>
      match skip with
      | S k => removeAll pat k s'
      | O =>
          match stripPrefix pat s with
          | Some rest =>
              removeAll pat
                (Nat.pred (length pat)
                 + (if startsWith rest [ch_newline] then 1 else 0)) s'
          | None => c :: removeAll pat 0 s'
          end
      end
  end.

(** The two replacements that remove the Markdown code blocks. *)
Definition removeCodeBlocks (cleanedResponse : jsstring) : jsstring :=
  removeAll fence 0 (removeAll fenceJson 0 cleanedResponse).

(** [s.indexOf(c)] for a string [c] of one code unit. *)
Fixpoint indexOf (c : N) (s : jsstring) : Z :=
  match s with
  | [] => -1
  | d :: s' =>
      if (d =? c)%N then 0
      else let i := indexOf c s' in
           if (i =? -1)%Z then -1 else i + 1
  end%Z.

(** [s.lastIndexOf(c)] for a string [c] of one code unit. *)
Fixpoint lastIndexOf (c : N) (s : jsstring) : Z :=
  match s with
  | [] => -1
  | d :: s' =>
      let i := lastIndexOf c s' in
      if (i =? -1)%Z then (if (d =? c)%N then 0 else -1) else i + 1
  end%Z.

(** [s.substring(indexStart, indexEnd)]: both indices are clamped to
    [0 .. s.length], and swapped when the first is the larger one. *)
Definition substring (s : jsstring) (indexStart indexEnd : Z) : jsstring :=
  let len := Z.of_nat (length s) in
  let a := Z.min (Z.max indexStart 0) len in
  let b := Z.min (Z.max indexEnd 0) len in
  let from := Z.min a b in
  let to := Z.max a b in
  take (Z.to_nat (to - from)) (drop (Z.to_nat from) s).

(** The outcome of the search for the JSON object: the text cut out, or
    [throw new Error("No JSON object found in response")]. *)
Inductive extraction : Type :=
  | NoJsonObject
  | JsonOnly (text : jsstring).

Definition extractJson (cleanedResponse : jsstring) : extraction :=
  let jsonStart := indexOf ch_lbrace cleanedResponse in
  let jsonEnd := (lastIndexOf ch_rbrace cleanedResponse + 1)%Z in
  if (jsonStart =? -1)%Z || (jsonEnd =? 0)%Z then NoJsonObject
  else JsonOnly (substring cleanedResponse jsonStart jsonEnd).

(** Whether [/\s*[}\]]/] matches at the start of [s]. *)
Definition closes (s : jsstring) : bool :=
  match dropWhile isWhiteSpace s with
  | c :: _ => (c =? ch_rbrace)%N || (c =? ch_rbracket)%N
  | [] => false
  end.

(** [s.replace(/,(\s*[}\]])/g, "$1")]: a match is a comma, the white space
    behind it and a closing brace or bracket, and it is replaced by itself
    without the comma.  The scan resumes behind the match; no comma lies
    in the part passed over, so the commas deleted are those behind which
    [closes] holds. *)
Fixpoint fixTrailingCommas (s : jsstring) : jsstring :=
  match s with
  | [] => []
  | c :: s' =>
      if (c =? ch_comma)%N && closes s' then fixTrailingCommas s'
      else c :: fixTrailingCommas s'
  end.

(** From the text of the answer to the text handed to [JSON.parse]. *)
Definition cleanResponse (jsonResponse : jsstring) : extraction :=
  let cleanedResponse := removeCodeBlocks (trim jsonResponse) in
  match extractJson cleanedResponse with
  | NoJsonObject => NoJsonObject
  | JsonOnly jsonOnly => JsonOnly (fixTrailingCommas jsonOnly)
  end.

(** Some comma of [s] is followed, white space apart, by a closing brace
    or bracket. *)
Fixpoint hasTrailingComma (s : jsstring) : bool :=
  match s with
  | [] => false
  | c :: s' => (c =? ch_comma)%N && closes s' || hasTrailingComma s'
  end.

(** Whether [s] starts, white space apart, with a comma. *)
Definition commaFollows (s : jsstring) : bool :=
  match dropWhile isWhiteSpace s with
  | c :: _ => (c =? ch_comma)%N
  | [] => false
  end.

(** Some comma of [s] is followed, white space apart, by another comma. *)
Fixpoint hasDoubleComma (s : jsstring) : bool :=
  match s with
  | [] => false
  | c :: s' => (c =? ch_comma)%N && commaFollows s' || hasDoubleComma s'
  end.

Definition ch_quote : N := 34%N.
Definition ch_colon : N := 58%N.
Definition ch_lbracket : N := 91%N.
Definition ch_backslash : N := 92%N.

(** The test of the callback on [string[offset - 1]]; a position outside
    the string reads as [undefined], which equals none of the four. *)
Definition delimiterBefore (before : option N) : bool :=
  match before with
  | Some c =>
      ((c =? ch_colon) || (c =? ch_comma) || (c =? ch_lbracket)
       || (c =? ch_lbrace))%N
  | None => false
  end.

(** The test of the callback on [string[offset + 2]]. *)
Definition delimiterAfter (after : option N) : bool :=
  match after with
  | Some c =>
      ((c =? ch_comma) || (c =? ch_rbrace) || (c =? ch_rbracket)
       || (c =? ch_colon))%N
  | None => false
  end.

(** The [replace] with a callback that is tried after a first failed
    parse.  A match of its regular expression is a code unit [p1] other
    than the backslash and the double quote behind it; the callback gives
    the match back, or puts a backslash between the two.  [before] is the
    code unit in front of the current position, and the scan resumes
    behind the quote. *)
Fixpoint fixQuotes (before : option N) (s : jsstring) : jsstring :=
  match s with
  | [] => []
  | p1 :: s' =>
      match s' with
      | [] => [p1]
      | q :: rest =>
          if negb (p1 =? ch_backslash)%N && (q =? ch_quote)%N then
            if delimiterBefore before || delimiterAfter (head rest)
            then p1 :: q :: fixQuotes (Some q) rest
            else p1 :: ch_backslash :: q :: fixQuotes (Some q) rest
          else p1 :: fixQuotes (Some p1) s'
      end
  end.

(** ** Concrete documents

    Lower-casing restricted to the letters A-Z, on which every host agrees,
    runs the script on the ASCII documents below. *)

Definition asciiLower (s : jsstring) : jsstring :=
  map (fun c => if ((65 <=? c) && (c <=? 90))%N then (c + 32)%N else c) s.

Definition book (t s : string) (w : jsval) : Resource :=
  {| title := JStr (str t); source := JStr (str s);
     type := JStr (str "book"); weeks_on_list := w |}.

Definition cleanCode : Resource :=
  book "Clean Code: A Handbook" "https://example.com/book" (JNum 3).

Definition cleanCodeAgain : Resource :=
  book "Clean Code - A Handbook" "http://www.example.com/book/" JUndefined.


Definition untitled : Resource :=
  {| title := JUndefined; source := JStr (str "https://example.com/book");
     type := JStr (str "book"); weeks_on_list := JUndefined |}.


Definition pragmatic : Resource :=
  book "Pragmatic Programmer Journey" "https://pragprog.com/tpp" (JNum 6).

Definition pragmaticReworded : Resource :=
  book "Programmer Pragmatic" "https://pragprog.com/tpp/" JUndefined.

Definition sreUncounted : Resource :=
  book "Site Reliability Engineering" "https://sre.google/books" (JNum 0).

Definition sreMiscounted : Resource :=
  book "Site Reliability Engineering" "https://sre.google/books"
    (JStr (str "3")).

Definition sreAgain : Resource :=
  book "Site Reliability Engineering" "https://sre.google/books" JUndefined.

Definition cleanCodeOlder : Resource :=
  book "Clean Code: A Handbook" "https://example.com/book" (JNum 5).


Definition cleanCodeOverdrawn : Resource :=
  book "Clean Code: A Handbook" "https://example.com/book" (JNum (-1)).

(** A counter of 2^-60, which is a double. *)
Definition cleanCodeBarelyCounted : Resource :=
  book "Clean Code: A Handbook" "https://example.com/book"
    (JNumber (Finite (1 # 1152921504606846976))).

Definition shelf : list Resource := [cleanCode; pragmatic].


Definition shelfWithZero : list Resource := [cleanCode; sreUncounted].

Definition arrivalsForZero : list Resource :=
  [cleanCodeAgain; sreAgain; untitled].

Section Merge.

(** [String.prototype.toLowerCase] *)
Variable toLowerCase : jsstring -> jsstring.

(** [v.toLowerCase()]: only a string has the method. *)
Definition call_toLowerCase (v : jsval) : result jsstring :=
  match v with
  | JStr s => Ok (toLowerCase s)
  | _ => Throw TypeError
  end.

(** ** Normalizer *)

(** [.replace(/^https?:\/\//, "")] *)
Definition removeProtocol (s : jsstring) : jsstring :=
  match stripPrefix (str "https://") s with
  | Some r => r
  | None =>
      match stripPrefix (str "http://") s with
      | Some r => r
      | None => s
      end
  end.

(** [.replace(/^www\./, "")] *)
Definition removeWww (s : jsstring) : jsstring :=
  match stripPrefix (str "www.") s with
  | Some r => r
  | None => s
  end.

(** [.replace(/\/+$/, "")] *)
Definition removeTrailingSlashes (s : jsstring) : jsstring :=
  dropWhileEnd (fun c => (c =? ch_slash)%N) s.

(** [.replace(/\/$/, "")] *)
Definition removeFinalSlash (s : jsstring) : jsstring :=
  match rev s with
  | c :: r => if (c =? ch_slash)%N then rev r else s
  | [] => s
  end.

Definition normalizeUrl (url : jsval) : result jsstring :=
  if negb (truthy url) then Ok []
  else
    s ← call_toLowerCase url;
    Ok (removeFinalSlash (removeTrailingSlashes (removeWww (removeProtocol s)))).

(** [.replace(/[:\-—–]/g, " ")] *)
Definition replaceSeparators (s : jsstring) : jsstring :=
  map (fun c => if isSeparator c then ch_space else c) s.

Definition normalizeTitle (title : jsval) : result jsstring :=
  if negb (truthy title) then Ok []
  else
    s ← call_toLowerCase title;
    Ok (trim (collapseWhiteSpace false (replaceSeparators (trim s)))).

(** ** Similarity scorer *)

(** [new Set(norm.split(" ").filter((w) => w.length > 2))] *)
Definition significantWords (norm : jsstring) : list jsstring :=
  new_Set (List.filter (fun w => 2 <? length w) (split ch_space norm)).

Definition titleSimilarity (title1 title2 : jsval) : result Q :=
  if negb (truthy title1) || negb (truthy title2) then Ok 0%Q
  else
    norm1 ← normalizeTitle title1;
    norm2 ← normalizeTitle title2;
    if bool_decide (norm1 = norm2) then Ok 1.0%Q
    else if includes norm1 norm2 || includes norm2 norm1 then Ok 0.9%Q
    else
      let words1 := significantWords norm1 in
      let words2 := significantWords norm2 in
      if (Set_size words1 =? 0) || (Set_size words2 =? 0) then Ok 0%Q
      else
        let intersection := new_Set (List.filter (Set_has words2) words1) in
        let union := new_Set (words1 ++ words2) in
        let overlap :=
          (inject_Z (Z.of_nat (Set_size intersection))
           / inject_Z (Z.of_nat (Set_size union)))%Q in
        if Qgtb overlap 0.7 then Ok 0.8%Q
        else if Qgtb overlap 0.5 then Ok 0.7%Q
        else Ok 0%Q.

Definition urlSimilarity (url1 url2 : jsval) : result Q :=
  if negb (truthy url1) || negb (truthy url2) then Ok 0%Q
  else
    norm1 ← normalizeUrl url1;
    norm2 ← normalizeUrl url2;
    if bool_decide (norm1 = norm2) then Ok 1.0%Q
    else
      let domain1 := default [] (split ch_slash norm1 !! 0) in
      let domain2 := default [] (split ch_slash norm2 !! 0) in
      if bool_decide (domain1 = domain2) then Ok 0.7%Q
      else Ok 0%Q.

(** ** Matcher *)

(** The scoring strategy of the inner callback. *)
Definition score (titleSim urlSim : Q) : Q :=
  if Qeq_bool titleSim 1.0 && Qeq_bool urlSim 1.0 then 2.0
  else if Qgeb titleSim 0.9 && Qgeb urlSim 0.7 then 1.8
  else if Qgeb titleSim 0.9 then 1.5
  else if Qgeb titleSim 0.8 && Qgeb urlSim 0.7 then 1.3
  else if Qgeb titleSim 0.7 && Qeq_bool urlSim 1.0 then 1.2
  else 0.

(** [if (score >= 2.0) ... else if (score >= 1.3) ... else ...] *)
Definition matchTypeOf (score : Q) : MatchType :=
  if Qgeb score 2.0 then MatchExact
  else if Qgeb score 1.3 then MatchFuzzy
  else MatchWeak.

Definition noCandidate : Candidate :=
  {| bestMatch := None; bestScore := 0; matchType := MatchNone |}.

(** The callback of [currentResourcesArray.forEach]. *)
Definition considerCurrent (newResource : Resource) (b : Candidate)
    (currentResource : Resource) : result Candidate :=
  titleSim ← titleSimilarity (title newResource) (title currentResource);
  urlSim ← urlSimilarity (source newResource) (source currentResource);
  let score := score titleSim urlSim in
  if Qgtb score (bestScore b) then
    Ok {| bestMatch := Some currentResource;
          bestScore := score;
          matchType := matchTypeOf score |}
  else Ok b.

Definition findBestMatch (newResource : Resource)
    (current : list Resource) : result Candidate :=
  forEach (considerCurrent newResource) current noCandidate.

(** ** Reconciliation loop *)

(** [(w || 1) + 1]: a falsy [w] gives [1 + 1]; a number is incremented
    by the addition of the host; [true] converts to [1]; a string, or an
    object through its string conversion, is concatenated with ["1"]. *)
Definition incrementWeeks (w : jsval) : jsval :=
  if truthy w then
    match w with
    | JNumber x => JNumber (addOne x)
    | JBool _ => JNum 2
    | JStr s | JObj s => JStr (s ++ str "1")
    | JUndefined | JNull => JNum 2
    end
  else JNum 2.

(** [bestMatch && bestScore >= 1.2], with the match it lets through. *)
Definition accepted (b : Candidate) : option Resource :=
  match bestMatch b with
  | Some m => if Qgeb (bestScore b) 1.2 then Some m else None
  | None => None
  end.

(** The branch of an accepted match. *)
Definition recordMatch (st : State) (k : nat) (newResource m : Resource)
    (mt : MatchType) : State :=
  let r := set_weeks_on_list newResource (incrementWeeks (weeks_on_list m)) in
  match mt with
  | MatchExact =>
      {| currentResourcesArray := currentResourcesArray st;
         newResources := <[k := r]> (newResources st);
         exactMatched := S (exactMatched st);
         fuzzyMatched := fuzzyMatched st;
         newCount := newCount st |}
  | _ =>
      {| currentResourcesArray := currentResourcesArray st;
         newResources := <[k := r]> (newResources st);
         exactMatched := exactMatched st;
         fuzzyMatched := S (fuzzyMatched st);
         newCount := newCount st |}
  end.

(** The branch of a new resource. *)
Definition recordNew (st : State) (k : nat) (newResource : Resource) : State :=
  {| currentResourcesArray := currentResourcesArray st;
     newResources :=
       <[k := set_weeks_on_list newResource (JNum 1)]> (newResources st);
     exactMatched := exactMatched st;
     fuzzyMatched := fuzzyMatched st;
     newCount := S (newCount st) |}.

(** The callback of [newResources.resources.forEach], at position [k]. *)
Definition updateResource (st : State) (k : nat) : result State :=
  match newResources st !! k with
  | None => Ok st
  | Some newResource =>
      b ← findBestMatch newResource (currentResourcesArray st);
      match accepted b with
      | Some m => Ok (recordMatch st k newResource m (matchType b))
      | None => Ok (recordNew st k newResource)
      end
  end.

Definition initialState (current new : list Resource) : State :=
  {| currentResourcesArray := current; newResources := new;
     exactMatched := 0; fuzzyMatched := 0; newCount := 0 |}.

Definition mergeAndUpdateResources (current new : list Resource)
  : result State :=
  forEach updateResource (seq 0 (length new)) (initialState current new).

(** ** Notions used to state the results *)

(** The fields the matcher calls string methods on are well formed when
    they hold a string or a value the guards [!title], [!url] take for a
    missing one. *)
Definition stringOrFalsy (v : jsval) : bool :=
  match v with
  | JStr _ => true
  | _ => negb (truthy v)
  end.

Definition wellFormed (r : Resource) : Prop :=
  stringOrFalsy (title r) = true ∧ stringOrFalsy (source r) = true.

(** The counters of current resources on which the invariant of the
    output counters holds: anything but a negative number, a non-empty
    string and a nested object or array. *)
Definition counterOk (w : jsval) : Prop :=
  match w with
  | JNumber (Finite q) => (0 <= q)%Q
  | JNumber (Infinite negative) => negative = false
  | JStr s => s = []
  | JObj _ => False
  | JUndefined | JNull | JBool _ => True
  end.

(** A counter that is a number, and at least 1. *)
Definition atLeastOne (w : jsval) : Prop :=
  match w with
  | JNumber (Finite q) => (1 <= q)%Q
  | JNumber (Infinite negative) => negative = false
  | _ => False
  end.


(** The combined score the inner callback gives to a pair. *)
Definition pairScore (newResource currentResource : Resource) : result Q :=
  titleSim ← titleSimilarity (title newResource) (title currentResource);
  urlSim ← urlSimilarity (source newResource) (source currentResource);
  Ok (score titleSim urlSim).

(** The decision table of the matcher as the specification prints it: a
    condition on the two similarities and the combined score of the row. *)
Record Row : Type := mkRow {
  holds : Q → Q → Prop;
  combined : Q
}.

Definition decisionTable : list Row :=
  [ mkRow (λ titleSim urlSim, titleSim == 1.0 ∧ urlSim == 1.0)%Q 2.0;
    mkRow (λ titleSim urlSim, 0.9 <= titleSim ∧ 0.7 <= urlSim)%Q 1.8;
    mkRow (λ titleSim urlSim, 0.9 <= titleSim)%Q 1.5;
    mkRow (λ titleSim urlSim, 0.8 <= titleSim ∧ 0.7 <= urlSim)%Q 1.3;
    mkRow (λ titleSim urlSim, 0.7 <= titleSim ∧ urlSim == 1.0)%Q 1.2 ].

(** [s] is what the table gives when read from the top: the score of the
    first row whose condition holds, and 0 when none does. *)
Definition firstSatisfied (table : list Row) (titleSim urlSim s : Q) : Prop :=
  (∃ i row, table !! i = Some row ∧ holds row titleSim urlSim ∧
            s = combined row ∧
            ∀ j row', j < i → table !! j = Some row' →
                      ¬ holds row' titleSim urlSim)
  ∨ ((∀ row, row ∈ table → ¬ holds row titleSim urlSim) ∧ s = 0%Q).

(** What the inner loop leaves in its three variables, given the combined
    scores of the current resources in array order: no score exceeds
    [bestScore]; with no candidate the variables still hold their initial
    values; a candidate sits at the first position whose score reaches
    [bestScore], that score is positive, and [matchType] is its label. *)
Definition bestCandidate (current : list Resource) (scores : list Q)
    (b : Candidate) : Prop :=
  (∀ i s, scores !! i = Some s → (s <= bestScore b)%Q) ∧
  match bestMatch b with
  | None => b = noCandidate
  | Some m =>
      ∃ i, current !! i = Some m ∧ scores !! i = Some (bestScore b) ∧
           (0 < bestScore b)%Q ∧ matchType b = matchTypeOf (bestScore b) ∧
           ∀ j s, j < i → scores !! j = Some s → (s < bestScore b)%Q
  end.

(** What the outer callback writes for a resource whose inner loop ended
    in [b], and which of the three counters it increments. *)
Definition annotate (newResource : Resource) (b : Candidate) : Resource :=
  match accepted b with
  | Some m => set_weeks_on_list newResource (incrementWeeks (weeks_on_list m))
  | None => set_weeks_on_list newResource (JNum 1)
  end.

Definition countsExact (b : Candidate) : bool :=
  match accepted b, matchType b with
  | Some _, MatchExact => true
  | _, _ => false
  end.

Definition countsFuzzy (b : Candidate) : bool :=
  match accepted b, matchType b with
  | Some _, MatchExact => false
  | Some _, _ => true
  | None, _ => false
  end.

Definition countsNew (b : Candidate) : bool :=
  match accepted b with
  | Some _ => false
  | None => true
  end.

(** The state after the first [k] resources have been processed. *)
Definition stateAfter (current new : list Resource) (bs : list Candidate)
    (k : nat) : State :=
  {| currentResourcesArray := current;
     newResources := zip_with annotate (take k new) (take k bs) ++ drop k new;
     exactMatched := length (List.filter countsExact (take k bs));
     fuzzyMatched := length (List.filter countsFuzzy (take k bs));
     newCount := length (List.filter countsNew (take k bs)) |}.

(** The state at the end of the run, given what the inner loop finds for
    each new resource. *)
Definition finalState (current new : list Resource) (bs : list Candidate)
  : State :=
  {| currentResourcesArray := current;
     newResources := zip_with annotate new bs;
     exactMatched := length (List.filter countsExact bs);
     fuzzyMatched := length (List.filter countsFuzzy bs);
     newCount := length (List.filter countsNew bs) |}.


Definition nonEmptyString (v : jsval) : Prop := ∃ s, v = JStr s ∧ s ≠ [].

(** Two resources the normalizer cannot tell apart. *)
Definition sameNormalized (p q : Resource) : Prop :=
  normalizeTitle (title p) = normalizeTitle (title q) ∧
  normalizeUrl (source p) = normalizeUrl (source q).

(** *** The title cascade, in the words of the specification *)

(** Lower-cased, trimmed, separators turned into spaces, runs of white
    space collapsed, trimmed again. *)
Definition normalizedTitle (a : jsstring) : jsstring :=
  trim (collapseWhiteSpace false (replaceSeparators (trim (toLowerCase a)))).

Definition isSubstring (t s : jsstring) : Prop := ∃ l r, s = l ++ t ++ r.

(** The only white space in [s] is the space. *)
Definition onlySpaces (s : jsstring) : Prop :=
  Forall (λ c, isWhiteSpace c = true → c = ch_space) s.

(** The pieces of [s] between the code units that satisfy [delim]. *)
Fixpoint fields (delim : N → bool) (s : jsstring) : list jsstring :=
  match s with
  | [] => [[]]
  | c :: s' =>
      if delim c then [] :: fields delim s'
      else match fields delim s' with
           | w :: ws => (c :: w) :: ws
           | [] => [[c]]
           end
  end.

(** Tokenizing on white space: the non-empty pieces between white-space
    code units. *)
Definition whitespaceTokens (s : jsstring) : list jsstring :=
  List.filter (λ w, negb (bool_decide (w = []))) (fields isWhiteSpace s).

(** The set of the tokens longer than 2 code units. *)
Definition tokenSet (norm : jsstring) : gset jsstring :=
  list_to_set (List.filter (λ w, 2 <? length w) (whitespaceTokens norm)).

Definition jaccard (A B : gset jsstring) : Q :=
  (inject_Z (Z.of_nat (size (A ∩ B))) / inject_Z (Z.of_nat (size (A ∪ B))))%Q.

(** One constructor per outcome of the cascade; the premises of a rule
    include the failure of the rules before it. *)
Inductive titleCascade (a b : jsstring) : Q → Prop :=
  | cascade_empty :
      a = [] ∨ b = [] →
      titleCascade a b 0%Q
  | cascade_equal :
      a ≠ [] → b ≠ [] →
      normalizedTitle a = normalizedTitle b →
      titleCascade a b 1.0%Q
  | cascade_substring :
      a ≠ [] → b ≠ [] →
      normalizedTitle a ≠ normalizedTitle b →
      isSubstring (normalizedTitle b) (normalizedTitle a)
      ∨ isSubstring (normalizedTitle a) (normalizedTitle b) →
      titleCascade a b 0.9%Q
  | cascade_no_tokens :
      a ≠ [] → b ≠ [] →
      normalizedTitle a ≠ normalizedTitle b →
      ¬ isSubstring (normalizedTitle b) (normalizedTitle a) →
      ¬ isSubstring (normalizedTitle a) (normalizedTitle b) →
      tokenSet (normalizedTitle a) = ∅ ∨ tokenSet (normalizedTitle b) = ∅ →
      titleCascade a b 0%Q
  | cascade_overlap :
      a ≠ [] → b ≠ [] →
      normalizedTitle a ≠ normalizedTitle b →
      ¬ isSubstring (normalizedTitle b) (normalizedTitle a) →
      ¬ isSubstring (normalizedTitle a) (normalizedTitle b) →
      tokenSet (normalizedTitle a) ≠ ∅ →
      tokenSet (normalizedTitle b) ≠ ∅ →
      ∀ overlap q,
        overlap = jaccard (tokenSet (normalizedTitle a))
                          (tokenSet (normalizedTitle b)) →
        (0.7 < overlap ∧ q = 0.8
         ∨ ¬ 0.7 < overlap ∧ 0.5 < overlap ∧ q = 0.7
         ∨ ¬ 0.7 < overlap ∧ ¬ 0.5 < overlap ∧ q = 0)%Q →
        titleCascade a b q.

(** *** Notions for further properties *)

Definition isString (v : jsval) : bool :=
  match v with
  | JStr _ => true
  | _ => false
  end.

(** The discrete values the two scorers return. *)
Definition titleLevels : list Q := [0; 0.7; 0.8; 0.9; 1.0]%Q.
Definition urlLevels : list Q := [0; 0.7; 1.0]%Q.

(** A pair of similarities that some row of the scoring strategy lets
    through. *)
Definition qualifies (titleSim urlSim : Q) : Prop :=
  (0.9 <= titleSim ∨ (0.8 <= titleSim ∧ 0.7 <= urlSim)
   ∨ (0.7 <= titleSim ∧ urlSim == 1.0))%Q.


(** What [normalizeUrl] can take off the front of a lower-cased URL. *)
Definition removablePrefixes : list jsstring :=
  [ []; str "http://"; str "https://"; str "www.";
    str "http://www."; str "https://www." ].

(** No two white-space code units in a row. *)
Fixpoint noDoubleSpace (s : jsstring) : Prop :=
  match s with
  | c :: s' =>
      match s' with
      | d :: _ => ¬ (isWhiteSpace c = true ∧ isWhiteSpace d = true)
      | [] => True
      end ∧ noDoubleSpace s'
  | [] => True
  end.

(** The shape of a normalized title: no separator, no white space but
    single spaces, none of them at either end. *)
Definition normalTitle (n : jsstring) : Prop :=
  Forall (λ c, isSeparator c = false) n ∧
  onlySpaces n ∧
  noDoubleSpace n ∧
  (∀ c, head n = Some c → isWhiteSpace c = false) ∧
  (∀ c, last n = Some c → isWhiteSpace c = false).


#[global] Instance Q_eq_dec : EqDecision Q.
Proof. solve_decision. Defined.

#[global] Instance number_eq_dec : EqDecision number.
Proof. solve_decision. Defined.

#[global] Instance jsval_eq_dec : EqDecision jsval.
Proof. solve_decision. Defined.


(** The values the combined score takes. *)
Definition scoreLevels : list Q := [0; 1.2; 1.3; 1.5; 1.8; 2.0]%Q.

(** The [resources] property of a parsed document: an array, or anything
    else (absent included), which the two guards
    [doc.resources && Array.isArray(doc.resources)] turn away. *)
(** The arguments on which a scorer reaches [toLowerCase] with something
    that is not a string. *)
Definition throwsOn (v1 v2 : jsval) : bool :=
  truthy v1 && truthy v2 && negb (isString v1 && isString v2).

Definition pairThrows (newResource currentResource : Resource) : bool :=
  throwsOn (title newResource) (title currentResource)
  || throwsOn (source newResource) (source currentResource).


(** *** Arrays with elements that are not objects

    [JSON.parse] can put [null], a number, a string or a boolean where a
    resource is expected.  A read of [e.title] or [e.source] throws a
    TypeError on [null] and gives [undefined] on the others; the write of
    [e.weeks_on_list] throws on [null] and is lost on the others, the
    script not being in strict mode.  The run on such arrays is written
    out below; on arrays of objects it is [mergeAndUpdateResources]. *)

Inductive element : Type :=
  | Object (r : Resource)
  | Null
  | Primitive.

#[global] Instance Resource_eq_dec : EqDecision Resource.
Proof. solve_decision. Defined.

#[global] Instance element_eq_dec : EqDecision element.
Proof. solve_decision. Defined.

Definition noFields : Resource :=
  {| title := JUndefined; source := JUndefined; type := JUndefined;
     weeks_on_list := JUndefined |}.

(** What the reads of [e.title] and [e.source] find. *)
Definition fieldsOf (e : element) : result Resource :=
  match e with
  | Object r => Ok r
  | Null => Throw TypeError
  | Primitive => Ok noFields
  end.

(** [e.weeks_on_list = w] *)
Definition writeWeeks (e : element) (w : jsval) : result element :=
  match e with
  | Object r => Ok (Object (set_weeks_on_list r w))
  | Null => Throw TypeError
  | Primitive => Ok Primitive
  end.

(** The callback of [currentResourcesArray.forEach] on elements. *)
Definition considerCurrentElement (newResource : element) (b : Candidate)
    (currentResource : element) : result Candidate :=
  n ← fieldsOf newResource;
  c ← fieldsOf currentResource;
  considerCurrent n b c.

(** The elements processed so far and the three counters. *)
Record Outcome : Type := mkOutcome {
  outElements : list element;
  outExact : nat;
  outFuzzy : nat;
  outNew : nat
}.

(** The callback of [newResources.resources.forEach] on elements. *)
Definition updateElement (current : list element) (st : Outcome)
    (newResource : element) : result Outcome :=
  b ← forEach (considerCurrentElement newResource) current noCandidate;
  match accepted b with
  | Some m =>
      e ← writeWeeks newResource (incrementWeeks (weeks_on_list m));
      match matchType b with
      | MatchExact =>
          Ok {| outElements := outElements st ++ [e];
                outExact := S (outExact st); outFuzzy := outFuzzy st;
                outNew := outNew st |}
      | _ =>
          Ok {| outElements := outElements st ++ [e];
                outExact := outExact st; outFuzzy := S (outFuzzy st);
                outNew := outNew st |}
      end
  | None =>
      e ← writeWeeks newResource (JNum 1);
      Ok {| outElements := outElements st ++ [e];
            outExact := outExact st; outFuzzy := outFuzzy st;
            outNew := S (outNew st) |}
  end.

Definition mergeAndUpdateElements (current new : list element)
  : result Outcome :=
  forEach (updateElement current) new
    {| outElements := []; outExact := 0; outFuzzy := 0; outNew := 0 |}.

(** An element after the write of the counter of a new resource. *)
Definition markNew (e : element) : element :=
  match e with
  | Object r => Object (set_weeks_on_list r (JNum 1))
  | _ => e
  end.

(** The fields of an element that is not [null]. *)
Definition elementFields (e : element) : Resource :=
  match e with
  | Object r => r
  | _ => noFields
  end.


(** ** Basic facts *)

Lemma forEach_app {St A : Type} (body : St → A → result St) l1 l2 s :
  forEach body (l1 ++ l2) s = (s' ← forEach body l1 s; forEach body l2 s').
Proof.
  revert s. induction l1 as [|x l1 IH]; intros s; simpl; [done|].
  destruct (body s x) as [s'|e]; simpl; [apply IH|done].
Qed.

Lemma Qgtb_lt a b : Qgtb a b = true ↔ (b < a)%Q.
Proof.
  unfold Qgtb. rewrite negb_true_iff, <- not_true_iff_false, Qle_bool_iff.
  split; [apply Qnot_le_lt|apply Qlt_not_le].
Qed.

Lemma Qgtb_le a b : Qgtb a b = false ↔ (a <= b)%Q.
Proof. unfold Qgtb. rewrite negb_false_iff. apply Qle_bool_iff. Qed.

Lemma Qgeb_le a b : Qgeb a b = true ↔ (b <= a)%Q.
Proof. apply Qle_bool_iff. Qed.

Lemma Qgeb_lt a b : Qgeb a b = false ↔ (a < b)%Q.
Proof.
  unfold Qgeb. rewrite <- not_true_iff_false, Qle_bool_iff.
  split; [apply Qnot_le_lt|apply Qlt_not_le].
Qed.

(** *** The scorers return one of their discrete levels and do not throw
    on well-formed fields *)

Lemma normalizeTitle_ok v :
  stringOrFalsy v = true → ∃ s, normalizeTitle v = Ok s.
Proof.
  intros H. unfold normalizeTitle. destruct (truthy v) eqn:T; simpl; [|eauto].
  unfold stringOrFalsy in H.
  destruct v; try (rewrite T in H; discriminate). simpl. eauto.
Qed.

Lemma normalizeUrl_ok v :
  stringOrFalsy v = true → ∃ s, normalizeUrl v = Ok s.
Proof.
  intros H. unfold normalizeUrl. destruct (truthy v) eqn:T; simpl; [|eauto].
  unfold stringOrFalsy in H.
  destruct v; try (rewrite T in H; discriminate). simpl. eauto.
Qed.

Lemma titleSimilarity_levels t1 t2 :
  stringOrFalsy t1 = true → stringOrFalsy t2 = true →
  ∃ q, titleSimilarity t1 t2 = Ok q ∧ q ∈ [0; 0.7; 0.8; 0.9; 1.0]%Q.
Proof.
  intros H1 H2. unfold titleSimilarity.
  destruct (negb (truthy t1) || negb (truthy t2)).
  { eexists; split; [done|set_solver]. }
  destruct (normalizeTitle_ok _ H1) as [n1 ->].
  destruct (normalizeTitle_ok _ H2) as [n2 ->]. simpl.
  repeat (match goal with |- context [if ?c then _ else _] => destruct c end);
    eexists; (split; [done|set_solver]).
Qed.

Lemma urlSimilarity_levels u1 u2 :
  stringOrFalsy u1 = true → stringOrFalsy u2 = true →
  ∃ q, urlSimilarity u1 u2 = Ok q ∧ q ∈ [0; 0.7; 1.0]%Q.
Proof.
  intros H1 H2. unfold urlSimilarity.
  destruct (negb (truthy u1) || negb (truthy u2)).
  { eexists; split; [done|set_solver]. }
  destruct (normalizeUrl_ok _ H1) as [n1 ->].
  destruct (normalizeUrl_ok _ H2) as [n2 ->]. simpl.
  repeat (match goal with |- context [if ?c then _ else _] => destruct c end);
    eexists; (split; [done|set_solver]).
Qed.

Lemma pairScore_ok newResource currentResource :
  wellFormed newResource → wellFormed currentResource →
  ∃ t u, titleSimilarity (title newResource) (title currentResource) = Ok t ∧
         urlSimilarity (source newResource) (source currentResource) = Ok u ∧
         pairScore newResource currentResource = Ok (score t u).
Proof.
  intros [Ht Hs] [Ht' Hs'].
  destruct (titleSimilarity_levels _ _ Ht Ht') as (t & Et & _).
  destruct (urlSimilarity_levels _ _ Hs Hs') as (u & Eu & _).
  exists t, u. unfold pairScore. rewrite Et, Eu. done.
Qed.

(** *** The scoring table *)

Ltac bool_to_Q :=
  repeat match goal with
  | H : (_ && _) = true |- _ => apply andb_true_iff in H as [? ?]
  | H : (_ && _) = false |- _ => apply andb_false_iff in H as [H|H]
  | H : Qeq_bool _ _ = true |- _ => apply Qeq_bool_iff in H
  | H : Qeq_bool _ _ = false |- _ => apply Qeq_bool_neq in H
  | H : Qgeb _ _ = true |- _ => apply Qgeb_le in H
  | H : Qgeb _ _ = false |- _ => apply Qgeb_lt in H
  end.

Ltac earlier_rows :=
  let j := fresh "j" in let row := fresh "row" in
  let Hj := fresh "Hj" in let Hl := fresh "Hl" in
  intros j row Hj Hl;
  do 5 (destruct j as [|j];
        [first [lia | injection Hl as <-; simpl; solve [intuition lra]]|]);
  lia.

Lemma score_firstSatisfied titleSim urlSim :
  firstSatisfied decisionTable titleSim urlSim (score titleSim urlSim).
Proof.
  unfold score.
  destruct (Qeq_bool titleSim 1.0 && Qeq_bool urlSim 1.0) eqn:E1.
  { bool_to_Q; left; exists 0; eexists; (split; [done|]); simpl;
      repeat split; try done; earlier_rows. }
  destruct (Qgeb titleSim 0.9 && Qgeb urlSim 0.7) eqn:E2.
  { bool_to_Q; left; exists 1; eexists; (split; [done|]); simpl;
      repeat split; try done; earlier_rows. }
  destruct (Qgeb titleSim 0.9) eqn:E3.
  { bool_to_Q; left; exists 2; eexists; (split; [done|]); simpl;
      repeat split; try done; earlier_rows. }
  destruct (Qgeb titleSim 0.8 && Qgeb urlSim 0.7) eqn:E4.
  { bool_to_Q; left; exists 3; eexists; (split; [done|]); simpl;
      repeat split; try done; earlier_rows. }
  destruct (Qgeb titleSim 0.7 && Qeq_bool urlSim 1.0) eqn:E5.
  { bool_to_Q; left; exists 4; eexists; (split; [done|]); simpl;
      repeat split; try done; earlier_rows. }
  assert (∀ j row, j < 5 → decisionTable !! j = Some row →
                   ¬ holds row titleSim urlSim) as Hall
    by (bool_to_Q; earlier_rows).
  right. split; [|done].
  intros row Hrow. apply list_elem_of_lookup in Hrow as [j Hl].
  apply (Hall j); [|done].
  apply lookup_lt_Some in Hl. simpl in Hl. lia.
Qed.




(** *** The inner loop *)

Lemma considerCurrent_pairScore newResource b currentResource :
  considerCurrent newResource b currentResource =
  (s ← pairScore newResource currentResource;
   Ok (if Qgtb s (bestScore b)
       then {| bestMatch := Some currentResource; bestScore := s;
               matchType := matchTypeOf s |}
       else b)).
Proof.
  unfold considerCurrent, pairScore.
  destruct (titleSimilarity _ _) as [t|]; simpl; [|done].
  destruct (urlSimilarity _ _) as [u|]; simpl; [|done].
  by destruct (Qgtb _ _).
Qed.

Lemma bestCandidate_nonneg current scores b :
  bestCandidate current scores b → (0 <= bestScore b)%Q.
Proof.
  intros [_ H]. destruct (bestMatch b).
  - destruct H as (i & _ & _ & Hpos & _). by apply Qlt_le_weak.
  - subst b. simpl. apply Qle_refl.
Qed.

Lemma bestCandidate_step current scores b x s :
  length current = length scores →
  bestCandidate current scores b →
  bestCandidate (current ++ [x]) (scores ++ [s])
    (if Qgtb s (bestScore b)
     then {| bestMatch := Some x; bestScore := s; matchType := matchTypeOf s |}
     else b).
Proof.
  intros Hlen Hbest.
  pose proof (bestCandidate_nonneg _ _ _ Hbest) as Hnn.
  destruct (Qgtb s (bestScore b)) eqn:Hgt.
  - apply Qgtb_lt in Hgt. destruct Hbest as [Hmax _].
    split; simpl.
    + intros i s' Hi. apply lookup_app_Some in Hi as [Hi|[_ Hi]].
      * apply Qlt_le_weak. eapply Qle_lt_trans; [by eapply Hmax|done].
      * apply list_lookup_singleton_Some in Hi as [_ <-]. apply Qle_refl.
    + exists (length current). repeat split.
      * by rewrite lookup_app_r, Nat.sub_diag.
      * by rewrite lookup_app_r, Hlen, Nat.sub_diag by lia.
      * eapply Qle_lt_trans; done.
      * intros j s' Hj Hl. rewrite lookup_app_l in Hl by lia.
        eapply Qle_lt_trans; [by eapply Hmax|done].
  - apply Qgtb_le in Hgt. destruct Hbest as [Hmax Hm].
    split.
    + intros i s' Hi. apply lookup_app_Some in Hi as [Hi|[_ Hi]].
      * by eapply Hmax.
      * by apply list_lookup_singleton_Some in Hi as [_ <-].
    + destruct (bestMatch b); [|done].
      destruct Hm as (i & Hi & Hsi & Hpos & Hty & Hfirst).
      exists i. repeat split; try done.
      * by apply lookup_app_l_Some.
      * by apply lookup_app_l_Some.
      * intros j s' Hj Hl. apply (Hfirst j s' Hj).
        apply lookup_lt_Some in Hsi.
        by rewrite lookup_app_l in Hl by lia.
Qed.

(** Whenever the inner loop ends normally, every pair was scored and the
    three variables describe the best candidate. *)
Lemma findBestMatch_inv newResource current b :
  findBestMatch newResource current = Ok b →
  ∃ scores,
    Forall2 (λ c s, pairScore newResource c = Ok s) current scores ∧
    bestCandidate current scores b.
Proof.
  unfold findBestMatch. revert b.
  induction current as [|x current IH] using rev_ind; intros b Hb.
  { injection Hb as <-. exists []. split; [apply Forall2_nil_2|].
    split; [|done]. intros i s Hi. by destruct i. }
  rewrite forEach_app in Hb.
  destruct (forEach _ current noCandidate) as [b0|] eqn:Hb0; [|done].
  simpl in Hb. rewrite considerCurrent_pairScore in Hb.
  destruct (pairScore newResource x) as [s|] eqn:Hs; [|done].
  simpl in Hb. injection Hb as <-.
  destruct (IH b0 eq_refl) as (scores & Hsc & Hbest).
  exists (scores ++ [s]). split.
  - apply Forall2_app; [done|by constructor].
  - apply bestCandidate_step; [by eapply Forall2_length|done].
Qed.

(** On well-formed resources the inner loop ends normally. *)
Lemma findBestMatch_ok newResource current :
  wellFormed newResource → Forall wellFormed current →
  ∃ b, findBestMatch newResource current = Ok b.
Proof.
  intros Hn. unfold findBestMatch.
  induction current as [|x current IH] using rev_ind; intros Hc.
  { by exists noCandidate. }
  apply Forall_app in Hc as [Hc Hx]. apply Forall_inv in Hx.
  destruct (IH Hc) as (b & Hb).
  destruct (pairScore_ok _ _ Hn Hx) as (t & u & _ & _ & Hs).
  rewrite forEach_app, Hb. simpl.
  rewrite considerCurrent_pairScore, Hs. simpl. eauto.
Qed.

Lemma findBestMatch_spec newResource current :
  wellFormed newResource → Forall wellFormed current →
  ∃ scores b,
    Forall2 (λ c s, pairScore newResource c = Ok s) current scores ∧
    findBestMatch newResource current = Ok b ∧
    bestCandidate current scores b.
Proof.
  intros Hn Hc. destruct (findBestMatch_ok _ _ Hn Hc) as [b Hb].
  destruct (findBestMatch_inv _ _ _ Hb) as (scores & Hsc & Hbest).
  by exists scores, b.
Qed.

(** *** The outer loop *)

Lemma mkState_eq c c' n n' e e' f f' w w' :
  c = c' → n = n' → e = e' → f = f' → w = w' →
  mkState c n e f w = mkState c' n' e' f' w'.
Proof. by intros -> -> -> -> ->. Qed.

Lemma stateAfter_insert current new bs k r b :
  new !! k = Some r → bs !! k = Some b →
  <[k := annotate r b]> (newResources (stateAfter current new bs k))
  = newResources (stateAfter current new bs (S k)).
Proof.
  intros Hr Hb. simpl.
  pose proof (lookup_lt_Some _ _ _ Hr) as Hk.
  pose proof (lookup_lt_Some _ _ _ Hb) as Hk'.
  assert (Hpre : length (zip_with annotate (take k new) (take k bs)) = k).
  { rewrite length_zip_with, !length_take. lia. }
  rewrite insert_app_r_alt by lia. rewrite Hpre, Nat.sub_diag.
  rewrite (drop_S _ _ _ Hr). simpl.
  rewrite (take_S_r _ _ _ Hr), (take_S_r _ _ _ Hb).
  rewrite zip_with_app by (rewrite !length_take; lia).
  by rewrite <- app_assoc.
Qed.

Lemma filter_take_S {A : Type} (p : A → bool) (l : list A) k x :
  l !! k = Some x →
  length (List.filter p (take (S k) l))
  = length (List.filter p (take k l)) + (if p x then 1 else 0).
Proof.
  intros Hx. rewrite (take_S_r _ _ _ Hx), List.filter_app, length_app.
  simpl. by destruct (p x).
Qed.

Lemma stateAfter_lookup current new bs k :
  k ≤ length bs → k ≤ length new →
  newResources (stateAfter current new bs k) !! k = new !! k.
Proof.
  intros Hb Hn. simpl.
  assert (Hpre : length (zip_with annotate (take k new) (take k bs)) = k).
  { rewrite length_zip_with, !length_take. lia. }
  rewrite lookup_app_r by lia. rewrite Hpre, Nat.sub_diag.
  by rewrite lookup_drop, Nat.add_0_r.
Qed.

Lemma updateResource_stateAfter current new bs k r b :
  new !! k = Some r → bs !! k = Some b →
  findBestMatch r current = Ok b →
  updateResource (stateAfter current new bs k) k
  = Ok (stateAfter current new bs (S k)).
Proof.
  intros Hr Hb Hfind.
  pose proof (stateAfter_insert current _ _ _ _ _ Hr Hb) as Hins.
  pose proof (filter_take_S countsExact _ _ _ Hb) as He.
  pose proof (filter_take_S countsFuzzy _ _ _ Hb) as Hf.
  pose proof (filter_take_S countsNew _ _ _ Hb) as Hn.
  pose proof (lookup_lt_Some _ _ _ Hr) as Hk.
  pose proof (lookup_lt_Some _ _ _ Hb) as Hk'.
  unfold updateResource.
  rewrite stateAfter_lookup, Hr by lia.
  change (currentResourcesArray (stateAfter current new bs k)) with current.
  rewrite Hfind. simpl mbind. unfold result_bind.
  unfold annotate in Hins.
  destruct (countsExact b) eqn:E1, (countsFuzzy b) eqn:E2,
    (countsNew b) eqn:E3;
    unfold countsExact in E1; unfold countsFuzzy in E2;
    unfold countsNew in E3;
    (destruct (accepted b) as [m|]; [destruct (matchType b)|]);
    try discriminate;
    unfold recordMatch, recordNew; f_equal; apply mkState_eq;
    solve [done | exact Hins | simpl; lia].
Qed.

Lemma forEach_stateAfter current new bs k :
  Forall2 (λ r b, findBestMatch r current = Ok b) new bs →
  k ≤ length new →
  forEach updateResource (seq 0 k) (initialState current new)
  = Ok (stateAfter current new bs k).
Proof.
  intros Hbs. pose proof (Forall2_length _ _ _ Hbs) as Hlen.
  induction k as [|k IH]; intros Hk.
  { simpl. unfold stateAfter, initialState. by rewrite !take_0, drop_0. }
  rewrite seq_S, forEach_app, IH by lia. simpl.
  destruct (lookup_lt_is_Some_2 new k) as [r Hr]; [lia|].
  destruct (lookup_lt_is_Some_2 bs k) as [b Hb]; [lia|].
  rewrite (updateResource_stateAfter _ _ _ _ r b); try done.
  by apply (Forall2_lookup_lr _ _ _ _ _ _ Hbs Hr Hb).
Qed.

(** Whenever the outer loop ends normally, the inner loop did for every
    resource processed so far. *)
Lemma forEach_stateAfter_inv current new k st :
  k ≤ length new →
  forEach updateResource (seq 0 k) (initialState current new) = Ok st →
  ∃ bs, Forall2 (λ r b, findBestMatch r current = Ok b) (take k new) bs ∧
        st = stateAfter current new bs k.
Proof.
  revert st. induction k as [|k IH]; intros st Hk Hst.
  { injection Hst as <-. exists []. split; [by rewrite take_0|].
    unfold stateAfter, initialState. by rewrite !take_0, drop_0. }
  rewrite seq_S, forEach_app in Hst.
  destruct (forEach updateResource (seq 0 k) _) as [stk|] eqn:Hstk; [|done].
  destruct (IH stk) as (bs & Hbs & ->); [lia|done|].
  pose proof (Forall2_length _ _ _ Hbs) as Hlen.
  rewrite length_take in Hlen.
  destruct (lookup_lt_is_Some_2 new k) as [r Hr]; [lia|].
  simpl in Hst.
  destruct (updateResource (stateAfter current new bs k) k) as [st'|] eqn:Hup;
    [|done].
  simpl in Hst. injection Hst as <-.
  assert (∃ b, findBestMatch r current = Ok b) as [b Hb].
  { unfold updateResource in Hup.
    rewrite stateAfter_lookup, Hr in Hup by lia.
    change (currentResourcesArray (stateAfter current new bs k)) with current
      in Hup.
    destruct (findBestMatch r current) as [b|]; [by exists b|done]. }
  exists (bs ++ [b]). split.
  - rewrite (take_S_r _ _ _ Hr). apply Forall2_app; [done|by constructor].
  - assert (Hsame : stateAfter current new bs k
                    = stateAfter current new (bs ++ [b]) k).
    { unfold stateAfter. by rewrite take_app_le by lia. }
    rewrite Hsame in Hup.
    rewrite (updateResource_stateAfter _ _ _ _ r b) in Hup; try done.
    + congruence.
    + rewrite lookup_app_r by lia. by replace (k - length bs) with 0 by lia.
Qed.

Lemma mergeAndUpdateResources_inv current new st :
  mergeAndUpdateResources current new = Ok st →
  ∃ bs, Forall2 (λ r b, findBestMatch r current = Ok b) new bs ∧
        st = finalState current new bs.
Proof.
  intros Hst. unfold mergeAndUpdateResources in Hst.
  destruct (forEach_stateAfter_inv _ _ _ _ (Nat.le_refl _) Hst)
    as (bs & Hbs & ->).
  rewrite firstn_all in Hbs. exists bs. split; [done|].
  pose proof (Forall2_length _ _ _ Hbs) as Hlen.
  unfold stateAfter, finalState.
  rewrite firstn_all, drop_all, app_nil_r.
  by rewrite Hlen, firstn_all.
Qed.

Lemma mergeAndUpdateResources_candidates current new bs :
  Forall2 (λ r b, findBestMatch r current = Ok b) new bs →
  mergeAndUpdateResources current new = Ok (finalState current new bs).
Proof.
  intros Hbs. pose proof (Forall2_length _ _ _ Hbs) as Hlen.
  unfold mergeAndUpdateResources.
  rewrite (forEach_stateAfter _ _ bs) by done.
  unfold stateAfter, finalState.
  rewrite firstn_all, drop_all, app_nil_r.
  by rewrite Hlen, firstn_all.
Qed.

(** For well-formed documents the inner loop ends normally for every new
    resource. *)
Lemma candidates_exist current new :
  Forall wellFormed current → Forall wellFormed new →
  ∃ bs, Forall2 (λ r b, findBestMatch r current = Ok b) new bs.
Proof.
  intros Hc Hn.
  induction Hn as [|r new Hr _ [bs IH]]; [by exists []|].
  destruct (findBestMatch_spec r current Hr Hc) as (_ & b & _ & Hb & _).
  exists (b :: bs). by constructor.
Qed.

Lemma mergeAndUpdateResources_spec current new :
  Forall wellFormed current → Forall wellFormed new →
  ∃ bs,
    Forall2 (λ r b, findBestMatch r current = Ok b) new bs ∧
    mergeAndUpdateResources current new = Ok (finalState current new bs).
Proof.
  intros Hc Hn. destruct (candidates_exist _ _ Hc Hn) as [bs Hbs].
  exists bs. split; [done|]. by apply mergeAndUpdateResources_candidates.
Qed.



(** *** Consequences for single candidates *)


Lemma accepted_Some b m :
  accepted b = Some m ↔ bestMatch b = Some m ∧ (1.2 <= bestScore b)%Q.
Proof.
  unfold accepted. destruct (bestMatch b) as [m'|].
  - destruct (Qgeb (bestScore b) 1.2) eqn:E.
    + apply Qgeb_le in E. split; [by intros [= ->]|by intros [[= ->] _]].
    + apply Qgeb_lt in E. split; [done|]. intros [_ H].
      exfalso. by apply (Qlt_not_le _ _ E).
  - split; [done|by intros [? _]].
Qed.

Lemma accepted_None current scores b :
  bestCandidate current scores b →
  accepted b = None ↔ (bestScore b < 1.2)%Q.
Proof.
  intros [_ Hm]. unfold accepted. destruct (bestMatch b) as [m|].
  - destruct (Qgeb (bestScore b) 1.2) eqn:E.
    + apply Qgeb_le in E. split; [done|]. intros H.
      exfalso. by apply (Qlt_not_le _ _ H).
    + by apply Qgeb_lt in E.
  - subst b. simpl. split; [done|]. done.
Qed.

Lemma accepted_elem_of current scores b m :
  bestCandidate current scores b → accepted b = Some m → m ∈ current.
Proof.
  intros [_ Hm] Ha. apply accepted_Some in Ha as [Ha _].
  rewrite Ha in Hm. destruct Hm as (i & Hi & _).
  by eapply list_elem_of_lookup_2.
Qed.

Lemma counts_partition b :
  (if countsExact b then 1 else 0) + (if countsFuzzy b then 1 else 0)
  + (if countsNew b then 1 else 0) = 1.
Proof.
  unfold countsExact, countsFuzzy, countsNew.
  destruct (accepted b); [destruct (matchType b)|]; done.
Qed.




Lemma counts_by_score current scores b :
  bestCandidate current scores b →
  countsExact b = Qgeb (bestScore b) 2.0 ∧
  countsFuzzy b = Qgeb (bestScore b) 1.2 && negb (Qgeb (bestScore b) 2.0) ∧
  countsNew b = negb (Qgeb (bestScore b) 1.2).
Proof.
  intros [_ Hm]. unfold countsExact, countsFuzzy, countsNew, accepted.
  destruct (bestMatch b) as [m|].
  - destruct Hm as (_ & _ & _ & _ & -> & _). unfold matchTypeOf.
    destruct (Qgeb (bestScore b) 1.2) eqn:E1,
      (Qgeb (bestScore b) 2.0) eqn:E2,
      (Qgeb (bestScore b) 1.3) eqn:E3; try done; bool_to_Q; lra.
  - by subst b.
Qed.

Lemma pairScore_inv newResource currentResource s :
  pairScore newResource currentResource = Ok s →
  ∃ t u, titleSimilarity (title newResource) (title currentResource) = Ok t ∧
         urlSimilarity (source newResource) (source currentResource) = Ok u ∧
         s = score t u.
Proof.
  unfold pairScore.
  destruct (titleSimilarity _ _) as [t|]; simpl; [|done].
  destruct (urlSimilarity _ _) as [u|]; simpl; [|done].
  intros [= <-]. by exists t, u.
Qed.

Lemma pairScores_sims newResource current scores :
  Forall2 (λ c s, pairScore newResource c = Ok s) current scores →
  ∃ sims,
    Forall2 (λ c tu,
      titleSimilarity (title newResource) (title c) = Ok tu.1 ∧
      urlSimilarity (source newResource) (source c) = Ok tu.2) current sims ∧
    scores = map (λ tu, score tu.1 tu.2) sims.
Proof.
  intros Hsc. induction Hsc as [|c s current scores Hs _ (sims & Hsims & ->)].
  { exists []. split; [constructor|done]. }
  destruct (pairScore_inv _ _ _ Hs) as (t & u & Ht & Hu & ->).
  exists ((t, u) :: sims). split; [by constructor|done].
Qed.








(** *** Resources that normalize to the same title and source *)

Lemma nonEmptyString_truthy v :
  nonEmptyString v → truthy v = true ∧ stringOrFalsy v = true.
Proof.
  intros (s & -> & Hs). simpl. split; [|done].
  by rewrite bool_decide_eq_false_2.
Qed.

Lemma titleSimilarity_eq_one a b t :
  titleSimilarity a b = Ok t → (t == 1.0)%Q →
  normalizeTitle a = normalizeTitle b.
Proof.
  unfold titleSimilarity.
  destruct (negb (truthy a) || negb (truthy b));
    [intros [= <-] H; lra|].
  destruct (normalizeTitle a) as [n1|], (normalizeTitle b) as [n2|];
    simpl; try done.
  destruct (bool_decide (n1 = n2)) eqn:E;
    [apply bool_decide_eq_true in E; by subst|].
  repeat (match goal with |- context [if ?c then _ else _] => destruct c end);
    intros [= <-] H; lra.
Qed.

Lemma urlSimilarity_eq_one a b u :
  urlSimilarity a b = Ok u → (u == 1.0)%Q →
  normalizeUrl a = normalizeUrl b.
Proof.
  unfold urlSimilarity.
  destruct (negb (truthy a) || negb (truthy b));
    [intros [= <-] H; lra|].
  destruct (normalizeUrl a) as [n1|], (normalizeUrl b) as [n2|];
    simpl; try done.
  destruct (bool_decide (n1 = n2)) eqn:E;
    [apply bool_decide_eq_true in E; by subst|].
  repeat (match goal with |- context [if ?c then _ else _] => destruct c end);
    intros [= <-] H; lra.
Qed.

Lemma titleSimilarity_one a b :
  nonEmptyString a → nonEmptyString b →
  normalizeTitle a = normalizeTitle b → titleSimilarity a b = Ok 1.0%Q.
Proof.
  intros [Ha Ha']%nonEmptyString_truthy [Hb Hb']%nonEmptyString_truthy Heq.
  unfold titleSimilarity. rewrite Ha, Hb. simpl.
  destruct (normalizeTitle_ok _ Ha') as [n1 E1].
  destruct (normalizeTitle_ok _ Hb') as [n2 E2].
  rewrite E1, E2 in *. simpl. injection Heq as ->.
  by rewrite bool_decide_eq_true_2.
Qed.

Lemma urlSimilarity_one a b :
  nonEmptyString a → nonEmptyString b →
  normalizeUrl a = normalizeUrl b → urlSimilarity a b = Ok 1.0%Q.
Proof.
  intros [Ha Ha']%nonEmptyString_truthy [Hb Hb']%nonEmptyString_truthy Heq.
  unfold urlSimilarity. rewrite Ha, Hb. simpl.
  destruct (normalizeUrl_ok _ Ha') as [n1 E1].
  destruct (normalizeUrl_ok _ Hb') as [n2 E2].
  rewrite E1, E2 in *. simpl. injection Heq as ->.
  by rewrite bool_decide_eq_true_2.
Qed.

Lemma score_exact_inv titleSim urlSim :
  (2.0 <= score titleSim urlSim)%Q →
  (titleSim == 1.0)%Q ∧ (urlSim == 1.0)%Q.
Proof.
  unfold score.
  destruct (Qeq_bool titleSim 1.0 && Qeq_bool urlSim 1.0) eqn:E1;
    [by bool_to_Q|].
  repeat (match goal with |- context [if ?c then _ else _] => destruct c end);
    intros H; lra.
Qed.

Lemma pairScore_sameNormalized c q :
  nonEmptyString (title c) → nonEmptyString (source c) →
  nonEmptyString (title q) → nonEmptyString (source q) →
  sameNormalized c q → pairScore c q = Ok 2.0%Q.
Proof.
  intros Hct Hcs Hqt Hqs [Ht Hs]. unfold pairScore.
  rewrite titleSimilarity_one, urlSimilarity_one by done. done.
Qed.

Lemma pairScore_exact_inv c q s :
  pairScore c q = Ok s → (2.0 <= s)%Q → sameNormalized c q.
Proof.
  unfold pairScore.
  destruct (titleSimilarity _ _) as [t|] eqn:Et; simpl; [|done].
  destruct (urlSimilarity _ _) as [u|] eqn:Eu; simpl; [|done].
  intros [= <-] Hs. apply score_exact_inv in Hs as [Ht Hu].
  split; [by eapply titleSimilarity_eq_one|by eapply urlSimilarity_eq_one].
Qed.



(** *** Strings, tokens and sets *)

Lemma stripPrefix_Some p s r : stripPrefix p s = Some r ↔ s = p ++ r.
Proof.
  revert s. induction p as [|a p IH]; intros s; simpl.
  { split; [by intros [= ->]|by intros ->]. }
  destruct s as [|c s]; [done|].
  destruct (N.eqb_spec a c) as [->|Hne].
  - rewrite IH. split; [by intros ->|by intros [= ->]].
  - split; [done|]. intros [= ? ?]. done.
Qed.

Lemma startsWith_true s t : startsWith s t = true ↔ ∃ r, s = t ++ r.
Proof.
  unfold startsWith. destruct (stripPrefix t s) as [r|] eqn:E.
  - apply stripPrefix_Some in E. split; [by exists r|done].
  - split; [done|]. intros [r Hr]. apply stripPrefix_Some in Hr. congruence.
Qed.

Lemma includes_isSubstring s t : includes s t = true ↔ isSubstring t s.
Proof.
  unfold isSubstring. induction s as [|c s IH]; simpl.
  - rewrite orb_false_r, startsWith_true. split.
    + intros [r Hr]. by exists [], r.
    + intros (l & r & H). symmetry in H.
      apply app_eq_nil in H as [-> H]. by exists r.
  - rewrite orb_true_iff, startsWith_true, IH. split.
    + intros [[r Hr]|(l & r & ->)]; [by exists [], r|by exists (c :: l), r].
    + intros (l & r & H). destruct l as [|c' l]; [left; by exists r|].
      right. injection H as -> ->. by exists l, r.
Qed.

Lemma split_fields s :
  onlySpaces s → split ch_space s = fields isWhiteSpace s.
Proof.
  induction 1 as [|c s Hc _ IH]; simpl; [done|]. rewrite IH.
  destruct (isWhiteSpace c) eqn:Ew.
  - by rewrite (Hc eq_refl).
  - destruct (N.eqb_spec c ch_space) as [->|]; [done|done].
Qed.

Lemma collapseWhiteSpace_onlySpaces inRun s :
  onlySpaces (collapseWhiteSpace inRun s).
Proof.
  revert inRun. induction s as [|c s IH]; intros inRun; simpl;
    [constructor|].
  destruct (isWhiteSpace c) eqn:Ew.
  - destruct inRun; [apply IH|]. constructor; [done|apply IH].
  - constructor; [congruence|apply IH].
Qed.

Lemma dropWhile_Forall {A : Type} (P : A → Prop) p (l : list A) :
  Forall P l → Forall P (dropWhile p l).
Proof.
  induction 1 as [|x l Hx Hl IH]; simpl; [constructor|].
  destruct (p x); [done|by constructor].
Qed.

Lemma trim_onlySpaces s : onlySpaces s → onlySpaces (trim s).
Proof.
  intros H. unfold trim, dropWhileEnd, onlySpaces.
  by apply List.Forall_rev, dropWhile_Forall, List.Forall_rev,
    dropWhile_Forall.
Qed.

Lemma normalizedTitle_onlySpaces a : onlySpaces (normalizedTitle a).
Proof. apply trim_onlySpaces, collapseWhiteSpace_onlySpaces. Qed.

Lemma filter_long_tokens s :
  List.filter (λ w, 2 <? length w) (whitespaceTokens s)
  = List.filter (λ w, 2 <? length w) (fields isWhiteSpace s).
Proof.
  unfold whitespaceTokens.
  induction (fields isWhiteSpace s) as [|w ws IH]; simpl; [done|].
  destruct w as [|c w]; simpl; [done|]. by rewrite IH.
Qed.

Lemma foldl_Set_add_elem_of {A : Type} `{EqDecision A} (l acc : list A) x :
  x ∈ foldl Set_add acc l ↔ x ∈ acc ∨ x ∈ l.
Proof.
  revert acc. induction l as [|y l IH]; intros acc; simpl.
  { rewrite elem_of_nil. tauto. }
  rewrite IH, elem_of_cons. unfold Set_add, Set_has.
  case_bool_decide as Hy.
  - split; [tauto|]. intros [?|[->|?]]; tauto.
  - rewrite elem_of_app, list_elem_of_singleton. tauto.
Qed.

Lemma foldl_Set_add_NoDup {A : Type} `{EqDecision A} (l acc : list A) :
  NoDup acc → NoDup (foldl Set_add acc l).
Proof.
  revert acc. induction l as [|y l IH]; intros acc Hacc; simpl; [done|].
  apply IH. unfold Set_add, Set_has. case_bool_decide as Hy; [done|].
  apply NoDup_app. split; [done|]. split; [|apply NoDup_singleton].
  intros x Hx ->%list_elem_of_singleton. done.
Qed.

Lemma new_Set_elem_of {A : Type} `{EqDecision A} (l : list A) x :
  x ∈ new_Set l ↔ x ∈ l.
Proof.
  unfold new_Set. rewrite foldl_Set_add_elem_of, elem_of_nil. tauto.
Qed.

Lemma new_Set_NoDup {A : Type} `{EqDecision A} (l : list A) :
  NoDup (new_Set l).
Proof. apply foldl_Set_add_NoDup, NoDup_nil_2. Qed.

(** The size of a host set is the cardinality of the set of its
    elements. *)
Lemma Set_size_new_Set (l : list jsstring) (X : gset jsstring) :
  (∀ x, x ∈ l ↔ x ∈ X) → Set_size (new_Set l) = size X.
Proof.
  intros HX. unfold Set_size.
  rewrite <- (size_list_to_set (C := gset jsstring)) by apply new_Set_NoDup.
  f_equal. apply set_eq. intros x.
  by rewrite elem_of_list_to_set, new_Set_elem_of.
Qed.

Lemma significantWords_tokenSet a x :
  x ∈ significantWords (normalizedTitle a) ↔ x ∈ tokenSet (normalizedTitle a).
Proof.
  unfold significantWords, tokenSet.
  rewrite new_Set_elem_of, elem_of_list_to_set, filter_long_tokens.
  by rewrite split_fields by apply normalizedTitle_onlySpaces.
Qed.

Lemma normalizeTitle_string a :
  a ≠ [] → normalizeTitle (JStr a) = Ok (normalizedTitle a).
Proof.
  intros Ha. unfold normalizeTitle. simpl.
  by rewrite bool_decide_eq_false_2.
Qed.

Lemma size_significantWords a :
  Set_size (significantWords (normalizedTitle a))
  = size (tokenSet (normalizedTitle a)).
Proof.
  unfold significantWords. apply Set_size_new_Set. intros x.
  rewrite <- significantWords_tokenSet. unfold significantWords.
  by rewrite new_Set_elem_of.
Qed.

Lemma size_intersection a b :
  Set_size (new_Set (List.filter
                       (Set_has (significantWords (normalizedTitle b)))
                       (significantWords (normalizedTitle a))))
  = size (tokenSet (normalizedTitle a) ∩ tokenSet (normalizedTitle b)).
Proof.
  apply Set_size_new_Set. intros x.
  rewrite elem_of_intersection, <- !significantWords_tokenSet.
  rewrite list_elem_of_In, filter_In, <- list_elem_of_In.
  unfold Set_has. by rewrite bool_decide_eq_true.
Qed.

Lemma size_union a b :
  Set_size (new_Set (significantWords (normalizedTitle a)
                     ++ significantWords (normalizedTitle b)))
  = size (tokenSet (normalizedTitle a) ∪ tokenSet (normalizedTitle b)).
Proof.
  apply Set_size_new_Set. intros x.
  by rewrite elem_of_union, <- !significantWords_tokenSet, elem_of_app.
Qed.

Lemma tokenSet_empty a :
  (Set_size (significantWords (normalizedTitle a)) =? 0) = true
  ↔ tokenSet (normalizedTitle a) = ∅.
Proof.
  rewrite size_significantWords, Nat.eqb_eq, size_empty_iff.
  by unfold_leibniz.
Qed.

Lemma titleCascade_functional a b q q' :
  titleCascade a b q → titleCascade a b q' → q = q'.
Proof.
  intros H H'.
  destruct H as [He|? ? Heq|? ? Hne Hsub|? ? Hne Hs1 Hs2 Hemp
                 |? ? Hne Hs1 Hs2 HA HB overlap q -> Hq];
    destruct H' as [He'|? ? Heq'|? ? Hne' Hsub'|? ? Hne' Hs1' Hs2' Hemp'
                    |? ? Hne' Hs1' Hs2' HA' HB' overlap' q' -> Hq'];
    try done; try tauto.
  destruct Hq as [(? & ->)|[(? & ? & ->)|(? & ? & ->)]],
    Hq' as [(? & ->)|[(? & ? & ->)|(? & ? & ->)]]; tauto.
Qed.

(** ** The claims *)

(** On well-formed documents the run ends normally. *)
Lemma mergeAndUpdateResources_ok current new :
  Forall wellFormed current → Forall wellFormed new →
  ∃ st, mergeAndUpdateResources current new = Ok st.
Proof.
  intros Hc Hn.
  destruct (mergeAndUpdateResources_spec _ _ Hc Hn) as (bs & _ & Hst). eauto.
Qed.



(** *** The addition of the host *)


Lemma roundHalfEven_floor n d :
  (0 < d)%Z → (n / d <= roundHalfEven n d)%Z.
Proof.
  intros Hd. unfold roundHalfEven.
  repeat (match goal with |- context [if ?c then _ else _] => destruct c end);
    lia.
Qed.






Lemma ilog2_lower a b :
  (0 < b)%Z → (b <= a)%Z →
  (0 <= ilog2 a b)%Z ∧ (b * 2 ^ ilog2 a b <= a)%Z.
Proof.
  intros Hb Hab. unfold ilog2.
  assert (Hd : (0 <= Z.log2 a - Z.log2 b)%Z).
  { pose proof (Z.log2_le_mono b a Hab). lia. }
  set (d := (Z.log2 a - Z.log2 b)%Z) in *.
  rewrite (Z.max_l d), (Z.max_r (- d)) by lia. rewrite Z.pow_0_r.
  destruct (Z.leb_spec (b * 2 ^ d) (a * 1)) as [H|H]; [split; lia|].
  destruct (Z.eq_dec d 0%Z) as [E|E].
  { rewrite E, Z.pow_0_r in H. lia. }
  split; [lia|].
  pose proof (Z.log2_spec a ltac:(lia)) as [Hlo _].
  pose proof (Z.log2_spec b Hb) as [_ Hhi].
  replace (Z.log2 a) with (Z.succ (Z.log2 b) + (d - 1))%Z in Hlo by lia.
  rewrite Z.pow_add_r in Hlo by (pose proof (Z.log2_nonneg b); lia).
  assert (0 < 2 ^ (d - 1))%Z by (apply Z.pow_pos_nonneg; lia).
  nia.
Qed.

Lemma roundDouble_ge_1 q :
  (1 <= q)%Q → atLeastOne (JNumber (roundDouble q)).
Proof.
  destruct q as [z b]. unfold Qle. simpl Qnum. simpl Qden. intros Hq.
  assert (Hzb : (Z.pos b <= z)%Z) by lia.
  unfold roundDouble. simpl Qnum. simpl Qden.
  assert (Hz : (0 < z)%Z) by lia.
  rewrite (Z.abs_eq z) by lia.
  destruct (Z.eqb_spec z 0) as [|_]; [lia|].
  destruct (ilog2_lower z (Z.pos b) ltac:(lia) Hzb) as [He Hlow].
  set (e := ilog2 z (Z.pos b)) in *.
  rewrite (Z.max_l e) by lia.
  destruct ((1024 <=? e)%Z || (e =? 1023)%Z && _) eqn:Hover; simpl.
  { destruct (Z.ltb_spec z 0); [lia|done]. }
  rewrite Qred_correct. unfold Qle. simpl Qnum. simpl Qden.
  rewrite Z.sgn_pos by done.
  set (up := Z.max (e - 52) 0). set (down := Z.max (52 - e) 0).
  assert (Hup : (0 < 2 ^ up)%Z) by (apply Z.pow_pos_nonneg; lia).
  assert (Hdown : (0 < 2 ^ down)%Z) by (apply Z.pow_pos_nonneg; lia).
  rewrite Z2Pos.id by done.
  assert (Hm : (2 ^ 52 <= roundHalfEven (z * 2 ^ down) (Z.pos b * 2 ^ up))%Z).
  { etrans; [|apply roundHalfEven_floor; lia].
    apply Z.div_le_lower_bound; [lia|].
    destruct (Z.le_gt_cases e 52) as [Hle|Hgt].
    - subst up down. rewrite (Z.max_r (e - 52)), (Z.max_l (52 - e)) by lia.
      rewrite Z.pow_0_r.
      replace (2 ^ 52)%Z with (2 ^ e * 2 ^ (52 - e))%Z
        by (rewrite <- Z.pow_add_r by lia; f_equal; lia).
      assert (0 < 2 ^ (52 - e))%Z by (apply Z.pow_pos_nonneg; lia).
      nia.
    - subst up down. rewrite (Z.max_l (e - 52)), (Z.max_r (52 - e)) by lia.
      rewrite Z.pow_0_r.
      replace (2 ^ e)%Z with (2 ^ (e - 52) * 2 ^ 52)%Z in Hlow
        by (rewrite <- Z.pow_add_r by lia; f_equal; lia).
      lia. }
  assert (Hd52 : (2 ^ down <= 2 ^ 52)%Z)
    by (apply Z.pow_le_mono_r; subst down; lia).
  nia.
Qed.

Lemma addOne_ge_1 q :
  (0 <= q)%Q → atLeastOne (JNumber (addOne (Finite q))).
Proof. intros Hq. simpl addOne. apply roundDouble_ge_1. lra. Qed.

Lemma atLeastOne_2 : atLeastOne (JNum 2).
Proof. unfold atLeastOne, JNum, Qle. simpl. lia. Qed.

Lemma incrementWeeks_atLeastOne w :
  counterOk w → atLeastOne (incrementWeeks w).
Proof.
  unfold incrementWeeks.
  destruct w as [| |b|[q|negative]|s|o]; simpl; try done;
    try (intros _; apply atLeastOne_2).
  - intros _. destruct b; apply atLeastOne_2.
  - intros Hq. destruct (negb (Qnum q =? 0)%Z); [|apply atLeastOne_2].
    by apply roundDouble_ge_1; lra.
  - intros ->. simpl. apply atLeastOne_2.
Qed.

(** C6, as the script has it.  When no counter of a current resource is a
    negative number, a non-empty string or a nested object or array, every
    resource of a run that ends normally carries a [weeks_on_list] that is
    a number and at least 1.  On documents whose titles and sources are
    strings or missing the run does end normally. *)
Theorem output_weeks_at_least_one current new :
  Forall (λ c, counterOk (weeks_on_list c)) current →
  (∀ st, mergeAndUpdateResources current new = Ok st →
         Forall (λ r, atLeastOne (weeks_on_list r)) (newResources st)) ∧
  (Forall wellFormed current → Forall wellFormed new →
   ∃ st, mergeAndUpdateResources current new = Ok st).
Proof.
  intros Hw. split; [|apply mergeAndUpdateResources_ok].
  intros st Hst.
  destruct (mergeAndUpdateResources_inv _ _ _ Hst) as (bs & Hbs & ->). simpl.
  apply Forall_lookup_2. intros k x Hx.
  apply lookup_zip_with_Some in Hx as (r & b & -> & Hr & Hb).
  pose proof (Forall2_lookup_lr _ _ _ _ _ _ Hbs Hr Hb) as Hfind.
  simpl in Hfind.
  destruct (findBestMatch_inv _ _ _ Hfind) as (scores & _ & Hbest).
  unfold annotate. destruct (accepted b) as [m|] eqn:Ha; simpl.
  - pose proof (accepted_elem_of _ _ _ _ Hbest Ha) as Hm.
    rewrite Forall_forall in Hw.
    apply incrementWeeks_atLeastOne. by apply Hw.
  - unfold Qle. simpl. lia.
Qed.

(** C1. Whenever the inner loop ends normally for a new resource, every
    pair was given the combined score of the decision table, read from the
    top with the first satisfied row winning, and 0 when no row is
    satisfied.  No score exceeds [bestScore]; the candidate is the first
    current resource, in array order, whose score reaches it, and there is
    a candidate only when some score is positive.  A candidate is accepted
    exactly when [bestScore] is at least 1.2, and with no acceptance
    [bestScore] is below 1.2.  On resources whose titles and sources are
    strings or missing the inner loop does end normally. *)
Theorem matcher_table_candidate_acceptance newResource current :
  (∀ b, findBestMatch newResource current = Ok b →
     ∃ sims,
       Forall2 (λ c tu,
         titleSimilarity (title newResource) (title c) = Ok tu.1 ∧
         urlSimilarity (source newResource) (source c) = Ok tu.2) current sims ∧
       Forall2 (λ c tu,
         pairScore newResource c = Ok (score tu.1 tu.2) ∧
         firstSatisfied decisionTable tu.1 tu.2 (score tu.1 tu.2)) current sims ∧
       bestCandidate current (map (λ tu, score tu.1 tu.2) sims) b ∧
       (∀ m, accepted b = Some m ↔
             bestMatch b = Some m ∧ (1.2 <= bestScore b)%Q) ∧
       (accepted b = None ↔ (bestScore b < 1.2)%Q)) ∧
  (wellFormed newResource → Forall wellFormed current →
   ∃ b, findBestMatch newResource current = Ok b).
Proof.
  split; [|apply findBestMatch_ok].
  intros b Hb.
  destruct (findBestMatch_inv _ _ _ Hb) as (scores & Hsc & Hbest).
  destruct (pairScores_sims _ _ _ Hsc) as (sims & Hsims & ->).
  exists sims. split; [done|]. split.
  { apply Forall2_fmap_r in Hsc.
    eapply Forall2_impl; [exact Hsc|]. intros c [t u] Hp. simpl in *.
    split; [done|apply score_firstSatisfied]. }
  split; [done|]. split.
  - intros m. apply accepted_Some.
  - by eapply accepted_None.
Qed.






(** C2. On two strings the title scorer ends normally and returns the
    value of the cascade: 0 when a raw input is empty; else 1.0 when the
    normalized forms are equal; else 0.9 when one normalized form is a
    substring of the other; else, with the sets of white-space tokens
    longer than 2 code units, 0 when one set is empty, and otherwise 0.8,
    0.7 or 0 as the Jaccard overlap exceeds 0.7, exceeds 0.5, or neither.
    The cascade determines that value. *)
Theorem titleSimilarity_cascade (a b : jsstring) :
  ∃ q, titleSimilarity (JStr a) (JStr b) = Ok q ∧
       titleCascade a b q ∧
       ∀ q', titleCascade a b q' → q' = q.
Proof.
  assert (∃ q, titleSimilarity (JStr a) (JStr b) = Ok q ∧ titleCascade a b q)
    as (q & Hq & Hc).
  2:{ exists q. split; [done|]. split; [done|].
      intros q' Hq'. by eapply titleCascade_functional. }
  unfold titleSimilarity. simpl truthy.
  destruct (decide (a = [])) as [->|Ha].
  { eexists. split; [done|]. apply cascade_empty. by left. }
  destruct (decide (b = [])) as [->|Hb].
  { eexists. split; [|apply cascade_empty; by right].
    by rewrite (bool_decide_eq_false_2 _ Ha). }
  rewrite (bool_decide_eq_false_2 _ Ha), (bool_decide_eq_false_2 _ Hb).
  simpl negb. simpl orb. cbv iota.
  rewrite !normalizeTitle_string by done. simpl mbind. unfold result_bind.
  case_bool_decide as Heq.
  { eexists. split; [done|]. by apply cascade_equal. }
  destruct (includes (normalizedTitle a) (normalizedTitle b)) eqn:Hi1.
  { apply includes_isSubstring in Hi1. eexists. split; [done|].
    apply cascade_substring; auto. }
  destruct (includes (normalizedTitle b) (normalizedTitle a)) eqn:Hi2.
  { apply includes_isSubstring in Hi2. eexists. split; [done|].
    apply cascade_substring; auto. }
  assert (Hs1 : ¬ isSubstring (normalizedTitle b) (normalizedTitle a)).
  { rewrite <- includes_isSubstring. congruence. }
  assert (Hs2 : ¬ isSubstring (normalizedTitle a) (normalizedTitle b)).
  { rewrite <- includes_isSubstring. congruence. }
  simpl orb. cbv iota. cbv zeta.
  destruct (Set_size (significantWords (normalizedTitle a)) =? 0) eqn:EA.
  { apply tokenSet_empty in EA. eexists. split; [done|].
    apply cascade_no_tokens; auto. }
  destruct (Set_size (significantWords (normalizedTitle b)) =? 0) eqn:EB.
  { apply tokenSet_empty in EB. eexists. split; [done|].
    apply cascade_no_tokens; auto. }
  assert (HA : tokenSet (normalizedTitle a) ≠ ∅).
  { rewrite <- tokenSet_empty. congruence. }
  assert (HB : tokenSet (normalizedTitle b) ≠ ∅).
  { rewrite <- tokenSet_empty. congruence. }
  simpl orb. cbv iota.
  rewrite size_intersection, size_union.
  fold (jaccard (tokenSet (normalizedTitle a)) (tokenSet (normalizedTitle b))).
  set (overlap := jaccard _ _).
  destruct (Qgtb overlap 0.7) eqn:E7.
  { apply Qgtb_lt in E7. eexists. split; [done|].
    eapply cascade_overlap; eauto. }
  apply Qgtb_le in E7.
  destruct (Qgtb overlap 0.5) eqn:E5.
  { apply Qgtb_lt in E5. eexists. split; [done|].
    eapply cascade_overlap; eauto. right. left.
    split; [by apply Qle_not_lt|done]. }
  apply Qgtb_le in E5. eexists. split; [done|].
  eapply cascade_overlap; eauto. right. right.
  split; [by apply Qle_not_lt|]. split; [by apply Qle_not_lt|done].
Qed.

(** ** Further properties of the scorers *)

Lemma Throw_TypeError {A : Type} (e : exn) : @Throw A e = Throw TypeError.
Proof. by destruct e. Qed.

Lemma bool_decide_sym {A : Type} `{EqDecision A} (x y : A) :
  bool_decide (x = y) = bool_decide (y = x).
Proof. apply bool_decide_ext. split; congruence. Qed.

Lemma Set_size_intersection_sym (w1 w2 : list jsstring) :
  Set_size (new_Set (List.filter (Set_has w2) w1))
  = Set_size (new_Set (List.filter (Set_has w1) w2)).
Proof.
  rewrite (Set_size_new_Set _ (list_to_set w1 ∩ list_to_set w2)).
  - symmetry. apply Set_size_new_Set. intros x.
    rewrite elem_of_intersection, !elem_of_list_to_set.
    rewrite list_elem_of_In, filter_In, <- list_elem_of_In.
    unfold Set_has. rewrite bool_decide_eq_true. tauto.
  - intros x.
    rewrite elem_of_intersection, !elem_of_list_to_set.
    rewrite list_elem_of_In, filter_In, <- list_elem_of_In.
    unfold Set_has. by rewrite bool_decide_eq_true.
Qed.

Lemma Set_size_union_sym (w1 w2 : list jsstring) :
  Set_size (new_Set (w1 ++ w2)) = Set_size (new_Set (w2 ++ w1)).
Proof.
  rewrite (Set_size_new_Set _ (list_to_set w1 ∪ list_to_set w2)).
  - symmetry. apply Set_size_new_Set. intros x.
    rewrite elem_of_union, !elem_of_list_to_set, elem_of_app. tauto.
  - intros x. by rewrite elem_of_union, !elem_of_list_to_set, elem_of_app.
Qed.

(** X1. The title scorer does not depend on the order of its two arguments,
    whatever they hold: same value, or an exception both ways. *)
Theorem titleSimilarity_symmetric (title1 title2 : jsval) :
  titleSimilarity title1 title2 = titleSimilarity title2 title1.
Proof.
  unfold titleSimilarity.
  rewrite (orb_comm (negb (truthy title2))).
  destruct (negb (truthy title1) || negb (truthy title2)); [done|].
  destruct (normalizeTitle title1) as [n1|e1], (normalizeTitle title2) as [n2|e2];
    simpl; rewrite ?(Throw_TypeError e1), ?(Throw_TypeError e2); try done.
  rewrite (bool_decide_sym n2 n1).
  destruct (bool_decide (n1 = n2)); [done|].
  rewrite (orb_comm (includes n2 n1)).
  destruct (includes n1 n2 || includes n2 n1); [done|].
  rewrite (orb_comm (Set_size (significantWords n2) =? 0)).
  destruct ((Set_size (significantWords n1) =? 0)
            || (Set_size (significantWords n2) =? 0)); [done|].
  by rewrite (Set_size_intersection_sym (significantWords n2)),
    (Set_size_union_sym (significantWords n2)).
Qed.

(** X2. The URL scorer does not depend on the order of its two arguments,
    whatever they hold. *)
Theorem urlSimilarity_symmetric (url1 url2 : jsval) :
  urlSimilarity url1 url2 = urlSimilarity url2 url1.
Proof.
  unfold urlSimilarity.
  rewrite (orb_comm (negb (truthy url2))).
  destruct (negb (truthy url1) || negb (truthy url2)); [done|].
  destruct (normalizeUrl url1) as [n1|e1], (normalizeUrl url2) as [n2|e2];
    simpl; rewrite ?(Throw_TypeError e1), ?(Throw_TypeError e2); try done.
  rewrite (bool_decide_sym n2 n1).
  destruct (bool_decide (n1 = n2)); [done|].
  by rewrite (bool_decide_sym (default [] (split ch_slash n2 !! 0))).
Qed.

Lemma normalizeTitle_Throw v :
  normalizeTitle v = Throw TypeError ↔ truthy v = true ∧ isString v = false.
Proof.
  unfold normalizeTitle.
  destruct v as [| |[]|[q|negative]|s|o]; simpl; try (by intuition).
  - destruct (Qnum q =? 0)%Z; simpl; by intuition.
  - destruct (bool_decide (s = [])); simpl; by intuition.
Qed.

Lemma normalizeUrl_Throw v :
  normalizeUrl v = Throw TypeError ↔ truthy v = true ∧ isString v = false.
Proof.
  unfold normalizeUrl.
  destruct v as [| |[]|[q|negative]|s|o]; simpl; try (by intuition).
  - destruct (Qnum q =? 0)%Z; simpl; by intuition.
  - destruct (bool_decide (s = [])); simpl; by intuition.
Qed.

Lemma titleSimilarity_Throw (v1 v2 : jsval) :
  titleSimilarity v1 v2 = Throw TypeError ↔
  truthy v1 = true ∧ truthy v2 = true ∧
  (isString v1 = false ∨ isString v2 = false).
Proof.
  unfold titleSimilarity.
  destruct (truthy v1) eqn:T1, (truthy v2) eqn:T2; simpl;
    try (split; [done|by intros (? & ? & ?)]).
  pose proof (normalizeTitle_Throw v1) as H1.
  pose proof (normalizeTitle_Throw v2) as H2.
  rewrite T1 in H1. rewrite T2 in H2.
  destruct (normalizeTitle v1) as [n1|[]]; simpl.
  - destruct (normalizeTitle v2) as [n2|[]]; simpl.
    + split.
      * repeat (match goal with
                | |- context [if ?c then _ else _] => destruct c
                end); done.
      * intros (_ & _ & [H|H]);
          [assert (E : Ok n1 = Throw TypeError) by by apply H1
          |assert (E : Ok n2 = Throw TypeError) by by apply H2]; done.
    + split; [|done]. intros _. split; [done|]. split; [done|].
      right. by apply H2.
  - split; [|done]. intros _. split; [done|]. split; [done|].
    left. by apply H1.
Qed.

Lemma urlSimilarity_Throw (v1 v2 : jsval) :
  urlSimilarity v1 v2 = Throw TypeError ↔
  truthy v1 = true ∧ truthy v2 = true ∧
  (isString v1 = false ∨ isString v2 = false).
Proof.
  unfold urlSimilarity.
  destruct (truthy v1) eqn:T1, (truthy v2) eqn:T2; simpl;
    try (split; [done|by intros (? & ? & ?)]).
  pose proof (normalizeUrl_Throw v1) as H1.
  pose proof (normalizeUrl_Throw v2) as H2.
  rewrite T1 in H1. rewrite T2 in H2.
  destruct (normalizeUrl v1) as [n1|[]]; simpl.
  - destruct (normalizeUrl v2) as [n2|[]]; simpl.
    + split.
      * repeat (match goal with
                | |- context [if ?c then _ else _] => destruct c
                end); done.
      * intros (_ & _ & [H|H]);
          [assert (E : Ok n1 = Throw TypeError) by by apply H1
          |assert (E : Ok n2 = Throw TypeError) by by apply H2]; done.
    + split; [|done]. intros _. split; [done|]. split; [done|].
      right. by apply H2.
  - split; [|done]. intros _. split; [done|]. split; [done|].
    left. by apply H1.
Qed.

(** X3. Each scorer throws exactly when both of its arguments are truthy
    and one of them is not a string: a falsy argument on either side is
    answered with 0 before the other one is looked at. *)
Theorem scorers_throw_iff (v1 v2 : jsval) :
  (titleSimilarity v1 v2 = Throw TypeError ↔
   truthy v1 = true ∧ truthy v2 = true ∧
   (isString v1 = false ∨ isString v2 = false)) ∧
  (urlSimilarity v1 v2 = Throw TypeError ↔
   truthy v1 = true ∧ truthy v2 = true ∧
   (isString v1 = false ∨ isString v2 = false)).
Proof. split; [apply titleSimilarity_Throw|apply urlSimilarity_Throw]. Qed.

Lemma titleSimilarity_in_levels v1 v2 q :
  titleSimilarity v1 v2 = Ok q → q ∈ titleLevels.
Proof.
  unfold titleSimilarity, titleLevels. intros H.
  destruct (negb (truthy v1) || negb (truthy v2));
    [injection H as <-; set_solver|].
  destruct (normalizeTitle v1) as [n1|]; simpl in H; [|done].
  destruct (normalizeTitle v2) as [n2|]; simpl in H; [|done].
  repeat (match type of H with
          | context [if ?c then _ else _] => destruct c
          end); injection H as <-; set_solver.
Qed.

Lemma urlSimilarity_in_levels v1 v2 q :
  urlSimilarity v1 v2 = Ok q → q ∈ urlLevels.
Proof.
  unfold urlSimilarity, urlLevels. intros H.
  destruct (negb (truthy v1) || negb (truthy v2));
    [injection H as <-; set_solver|].
  destruct (normalizeUrl v1) as [n1|]; simpl in H; [|done].
  destruct (normalizeUrl v2) as [n2|]; simpl in H; [|done].
  repeat (match type of H with
          | context [if ?c then _ else _] => destruct c
          end); injection H as <-; set_solver.
Qed.

(** X4. Whatever the arguments, a value returned by the title scorer is one
    of 0, 0.7, 0.8, 0.9, 1.0 and a value returned by the URL scorer is one
    of 0, 0.7, 1.0; both lie between 0 and 1. *)
Theorem scorers_levels (v1 v2 : jsval) (q : Q) :
  (titleSimilarity v1 v2 = Ok q → q ∈ titleLevels ∧ (0 <= q <= 1)%Q) ∧
  (urlSimilarity v1 v2 = Ok q → q ∈ urlLevels ∧ (0 <= q <= 1)%Q).
Proof.
  assert (Ht : Forall (λ x, 0 <= x <= 1)%Q titleLevels).
  { unfold titleLevels. repeat constructor; simpl; lra. }
  assert (Hu : Forall (λ x, 0 <= x <= 1)%Q urlLevels).
  { unfold urlLevels. repeat constructor; simpl; lra. }
  rewrite Forall_forall in Ht. rewrite Forall_forall in Hu.
  split; intros H.
  - apply titleSimilarity_in_levels in H. split; [done|by apply Ht].
  - apply urlSimilarity_in_levels in H. split; [done|by apply Hu].
Qed.

(** X5. On the values the scorers return, the combined score never goes
    down when a similarity goes up. *)
Theorem score_monotone titleSim titleSim' urlSim urlSim' :
  titleSim ∈ titleLevels → titleSim' ∈ titleLevels →
  urlSim ∈ urlLevels → urlSim' ∈ urlLevels →
  (titleSim <= titleSim')%Q → (urlSim <= urlSim')%Q →
  (score titleSim urlSim <= score titleSim' urlSim')%Q.
Proof.
  unfold titleLevels, urlLevels. intros Ht Ht' Hu Hu'.
  repeat (apply elem_of_cons in Ht as [->|Ht]); [..|by apply elem_of_nil in Ht];
  repeat (apply elem_of_cons in Ht' as [->|Ht']);
    try (by apply elem_of_nil in Ht');
  repeat (apply elem_of_cons in Hu as [->|Hu]);
    try (by apply elem_of_nil in Hu);
  repeat (apply elem_of_cons in Hu' as [->|Hu']);
    try (by apply elem_of_nil in Hu');
  intros H1 H2;
  first [ exfalso; lra | vm_compute; discriminate ].
Qed.

Lemma score_qualifies titleSim urlSim :
  (1.2 <= score titleSim urlSim)%Q ↔ qualifies titleSim urlSim.
Proof.
  unfold score, qualifies.
  destruct (Qeq_bool titleSim 1.0 && Qeq_bool urlSim 1.0) eqn:E1.
  { bool_to_Q. split; [intros _; left; lra|intros _; lra]. }
  destruct (Qgeb titleSim 0.9 && Qgeb urlSim 0.7) eqn:E2.
  { bool_to_Q; (split; [intros _; left; lra|intros _; lra]). }
  destruct (Qgeb titleSim 0.9) eqn:E3.
  { bool_to_Q; (split; [intros _; left; lra|intros _; lra]). }
  destruct (Qgeb titleSim 0.8 && Qgeb urlSim 0.7) eqn:E4.
  { bool_to_Q; (split; [intros _; right; left; lra|intros _; lra]). }
  destruct (Qgeb titleSim 0.7 && Qeq_bool urlSim 1.0) eqn:E5.
  { bool_to_Q; (split; [intros _; right; right; split; [lra|done]
                       |intros _; lra]). }
  bool_to_Q; (split; [intros H; lra|]);
    intros [H|[[H H']|[H H']]]; try lra; contradiction.
Qed.

(** X6. When the inner loop ends normally, the new resource is matched
    exactly when some current resource qualifies against it: a title
    similarity of at least 0.9, or of at least 0.8 with a URL similarity of
    at least 0.7, or of at least 0.7 with a URL similarity of 1. *)
Theorem matched_iff_some_pair_qualifies newResource current b :
  findBestMatch newResource current = Ok b →
  is_Some (accepted b) ↔
  ∃ c t u, c ∈ current ∧
           titleSimilarity (title newResource) (title c) = Ok t ∧
           urlSimilarity (source newResource) (source c) = Ok u ∧
           qualifies t u.
Proof.
  intros Hb.
  destruct (findBestMatch_inv _ _ _ Hb) as (scores & Hsc & Hbest).
  split.
  - intros [m Hm]. apply accepted_Some in Hm as [Hm Hge].
    destruct Hbest as [_ Hbm]. rewrite Hm in Hbm.
    destruct Hbm as (i & Hi & Hsi & _).
    destruct (Forall2_lookup_l _ _ _ _ _ Hsc Hi) as (s & Hs & Hp).
    assert (s = bestScore b) as -> by congruence.
    destruct (pairScore_inv _ _ _ Hp) as (t & u & Ht & Hu & Heq).
    exists m, t, u. split; [by eapply list_elem_of_lookup_2|].
    split; [done|]. split; [done|].
    apply score_qualifies. by rewrite <- Heq.
  - intros (c & t & u & Hin & Ht & Hu & Hq).
    apply list_elem_of_lookup in Hin as [i Hi].
    destruct (Forall2_lookup_l _ _ _ _ _ Hsc Hi) as (s & Hs & Hp).
    destruct (pairScore_inv _ _ _ Hp) as (t' & u' & Ht' & Hu' & ->).
    assert (t' = t) as -> by congruence.
    assert (u' = u) as -> by congruence.
    apply score_qualifies in Hq.
    destruct (accepted b) as [m|] eqn:Ha; [by eexists|].
    apply (accepted_None _ _ _ Hbest) in Ha.
    destruct Hbest as [Hmax _]. apply Hmax in Hs. lra.
Qed.

(** ** Further properties of the normalizer *)

Lemma dropWhile_split {A : Type} (p : A → bool) (l : list A) :
  ∃ pre, l = pre ++ dropWhile p l ∧ Forall (λ x, p x = true) pre ∧
         ∀ x, head (dropWhile p l) = Some x → p x = false.
Proof.
  induction l as [|a l (pre & Hl & Hpre & Hhd)]; simpl.
  { exists []. split; [done|]. split; [constructor|done]. }
  destruct (p a) eqn:Ha.
  - exists (a :: pre). split; [by rewrite Hl at 1|].
    split; [by constructor|done].
  - exists []. split; [done|]. split; [constructor|].
    intros x [= <-]. done.
Qed.

Lemma last_rev {A : Type} (l : list A) : last (rev l) = head l.
Proof. destruct l as [|a l]; [done|]. simpl. by rewrite last_snoc. Qed.

Lemma head_rev {A : Type} (l : list A) : head (rev l) = last l.
Proof. by rewrite <- last_rev, rev_involutive. Qed.

Lemma dropWhileEnd_split {A : Type} (p : A → bool) (l : list A) :
  ∃ suf, l = dropWhileEnd p l ++ suf ∧ Forall (λ x, p x = true) suf ∧
         ∀ x, last (dropWhileEnd p l) = Some x → p x = false.
Proof.
  unfold dropWhileEnd.
  destruct (dropWhile_split p (rev l)) as (pre & Hl & Hpre & Hhd).
  exists (rev pre). split; [|split].
  - rewrite <- rev_app_distr, <- Hl. by rewrite rev_involutive.
  - by apply List.Forall_rev.
  - intros x. rewrite last_rev. apply Hhd.
Qed.

Lemma dropWhile_id {A : Type} (p : A → bool) (l : list A) :
  (∀ x, head l = Some x → p x = false) → dropWhile p l = l.
Proof.
  destruct l as [|a l]; [done|]. simpl. intros H. by rewrite (H a eq_refl).
Qed.

Lemma dropWhileEnd_id {A : Type} (p : A → bool) (l : list A) :
  (∀ x, last l = Some x → p x = false) → dropWhileEnd p l = l.
Proof.
  intros H. unfold dropWhileEnd. rewrite dropWhile_id.
  - apply rev_involutive.
  - intros x. rewrite head_rev. apply H.
Qed.

Lemma removeFinalSlash_id s :
  last s ≠ Some ch_slash → removeFinalSlash s = s.
Proof.
  unfold removeFinalSlash. rewrite <- head_rev.
  destruct (rev s) as [|c r]; [done|]. simpl. intros H.
  destruct (N.eqb_spec c ch_slash) as [->|]; [done|done].
Qed.

Lemma removeProtocol_split s :
  ∃ p, p ∈ [ []; str "http://"; str "https://" ] ∧ s = p ++ removeProtocol s.
Proof.
  unfold removeProtocol.
  destruct (stripPrefix (str "https://") s) as [r|] eqn:E1.
  { apply stripPrefix_Some in E1. exists (str "https://"). split; [set_solver|done]. }
  destruct (stripPrefix (str "http://") s) as [r|] eqn:E2.
  { apply stripPrefix_Some in E2. exists (str "http://"). split; [set_solver|done]. }
  exists []. split; [set_solver|done].
Qed.

Lemma removeWww_split s :
  ∃ w, w ∈ [ []; str "www." ] ∧ s = w ++ removeWww s.
Proof.
  unfold removeWww.
  destruct (stripPrefix (str "www.") s) as [r|] eqn:E1.
  { apply stripPrefix_Some in E1. exists (str "www."). split; [set_solver|done]. }
  exists []. split; [set_solver|done].
Qed.

Lemma Forall_eqb_replicate (suf : jsstring) :
  Forall (λ x, (x =? ch_slash)%N = true) suf →
  suf = replicate (length suf) ch_slash.
Proof.
  induction 1 as [|x suf Hx _ IH]; [done|]. simpl.
  apply N.eqb_eq in Hx as ->. by rewrite <- IH.
Qed.

(** X7. What [normalizeUrl] returns for a non-empty string is the
    lower-cased URL without one of six prefixes ([http://] or [https://],
    then [www.], each optional) and without its trailing slashes; the
    result never ends with a slash, so the last of the four replacements
    never changes anything.  A falsy argument gives the empty string. *)
Theorem normalizeUrl_shape url n :
  normalizeUrl url = Ok n →
  (truthy url = false ∧ n = [])
  ∨ ∃ s pre k,
      url = JStr s ∧ pre ∈ removablePrefixes ∧
      toLowerCase s = pre ++ n ++ replicate k ch_slash ∧
      last n ≠ Some ch_slash ∧
      n = removeTrailingSlashes (removeWww (removeProtocol (toLowerCase s))).
Proof.
  unfold normalizeUrl. destruct (truthy url) eqn:T; simpl.
  2:{ intros [= <-]. by left. }
  destruct url as [| |b|z|s|o]; simpl; try done.
  intros [= <-]. right.
  set (l := toLowerCase s).
  destruct (removeProtocol_split l) as (p & Hp & Hl).
  destruct (removeWww_split (removeProtocol l)) as (w & Hw & Hr).
  unfold removeTrailingSlashes.
  destruct (dropWhileEnd_split (λ c, (c =? ch_slash)%N)
              (removeWww (removeProtocol l))) as (suf & Hsuf & Hall & Hlast).
  set (m := dropWhileEnd _ _) in *.
  assert (Hm : last m ≠ Some ch_slash).
  { intros H. by apply Hlast in H. }
  rewrite (removeFinalSlash_id m Hm).
  exists s, (p ++ w), (length suf).
  split; [done|]. split.
  { unfold removablePrefixes.
    repeat (apply elem_of_cons in Hp as [->|Hp]);
      try (by apply elem_of_nil in Hp);
      repeat (apply elem_of_cons in Hw as [->|Hw]);
      try (by apply elem_of_nil in Hw); simpl; set_solver. }
  split; [|done].
  fold l. rewrite Hl at 1. rewrite Hr at 1. rewrite Hsuf at 1.
  rewrite <- (Forall_eqb_replicate suf Hall). by rewrite <- !app_assoc.
Qed.

Lemma collapseWhiteSpace_Forall (P : N → Prop) inRun s :
  P ch_space → Forall P s → Forall P (collapseWhiteSpace inRun s).
Proof.
  intros Hsp Hs. revert inRun.
  induction Hs as [|c s Hc _ IH]; intros inRun; simpl; [constructor|].
  destruct (isWhiteSpace c); [destruct inRun|]; try constructor; auto.
Qed.

Lemma trim_Forall (P : N → Prop) s : Forall P s → Forall P (trim s).
Proof.
  intros H. unfold trim, dropWhileEnd.
  by apply List.Forall_rev, dropWhile_Forall, List.Forall_rev,
    dropWhile_Forall.
Qed.

Lemma replaceSeparators_Forall s :
  Forall (λ c, isSeparator c = false) (replaceSeparators s).
Proof.
  unfold replaceSeparators. apply Forall_fmap, Forall_true. intros c. simpl.
  by destruct (isSeparator c) eqn:E.
Qed.

Lemma collapseWhiteSpace_noDoubleSpace inRun s :
  noDoubleSpace (collapseWhiteSpace inRun s) ∧
  (inRun = true →
   ∀ c, head (collapseWhiteSpace inRun s) = Some c → isWhiteSpace c = false).
Proof.
  revert inRun. induction s as [|c s IH]; intros inRun; simpl; [done|].
  destruct (isWhiteSpace c) eqn:Ew.
  - destruct (IH true) as [Hnd Hhd]. destruct inRun; [by split|].
    split; [|done]. simpl. split; [|done].
    destruct (collapseWhiteSpace true s) as [|d r] eqn:E; [done|].
    intros [_ Hd]. by rewrite (Hhd eq_refl d) in Hd.
  - destruct (IH false) as [Hnd _]. split.
    + simpl. split; [|done].
      destruct (collapseWhiteSpace false s); [done|]. intros [H _]. congruence.
    + intros _ x [= <-]. done.
Qed.

Lemma noDoubleSpace_app l1 l2 :
  noDoubleSpace (l1 ++ l2) → noDoubleSpace l1 ∧ noDoubleSpace l2.
Proof.
  induction l1 as [|c l1 IH]; simpl; [done|].
  intros [Hc Hrest]. destruct (IH Hrest) as [H1 H2].
  split; [|done]. split; [|done].
  destruct l1 as [|d l1]; [done|]. done.
Qed.

Lemma trim_noDoubleSpace s : noDoubleSpace s → noDoubleSpace (trim s).
Proof.
  intros H. unfold trim.
  destruct (dropWhile_split isWhiteSpace s) as (pre & Hs & _).
  rewrite Hs in H. apply noDoubleSpace_app in H as [_ H].
  destruct (dropWhileEnd_split isWhiteSpace (dropWhile isWhiteSpace s))
    as (suf & Hd & _).
  rewrite Hd in H. by apply noDoubleSpace_app in H as [H _].
Qed.

Lemma trim_ends s :
  (∀ c, head (trim s) = Some c → isWhiteSpace c = false) ∧
  (∀ c, last (trim s) = Some c → isWhiteSpace c = false).
Proof.
  unfold trim.
  destruct (dropWhile_split isWhiteSpace s) as (pre & _ & _ & Hhd).
  destruct (dropWhileEnd_split isWhiteSpace (dropWhile isWhiteSpace s))
    as (suf & Hd & _ & Hlast).
  split; [|done].
  intros c Hc. apply Hhd. rewrite Hd.
  by destruct (dropWhileEnd isWhiteSpace (dropWhile isWhiteSpace s)).
Qed.

Lemma normalizeTitle_normalTitle v n :
  normalizeTitle v = Ok n → normalTitle n.
Proof.
  unfold normalizeTitle. destruct (negb (truthy v)).
  { intros [= <-]. repeat split; try constructor; done. }
  destruct (call_toLowerCase v) as [s|]; simpl; [|done].
  intros [= <-]. split; [|split; [|split]].
  - apply trim_Forall, collapseWhiteSpace_Forall;
      [done|apply replaceSeparators_Forall].
  - apply trim_onlySpaces, collapseWhiteSpace_onlySpaces.
  - apply trim_noDoubleSpace, collapseWhiteSpace_noDoubleSpace.
  - apply trim_ends.
Qed.

(** X8. Every title the normalizer returns is in normal form: it holds no
    colon, hyphen or dash, its only white space is the single space, never
    two in a row and never at either end. *)
Theorem normalizeTitle_normal_form v n :
  normalizeTitle v = Ok n → normalTitle n.
Proof. apply normalizeTitle_normalTitle. Qed.

Lemma collapseWhiteSpace_id inRun s :
  onlySpaces s → noDoubleSpace s →
  (inRun = true → ∀ c, head s = Some c → isWhiteSpace c = false) →
  collapseWhiteSpace inRun s = s.
Proof.
  intros Hs. revert inRun.
  induction Hs as [|c s Hc _ IH]; intros inRun Hnd Hhd; simpl; [done|].
  destruct Hnd as [Hcd Hnd].
  destruct (isWhiteSpace c) eqn:Ew.
  - destruct inRun; [by rewrite (Hhd eq_refl c eq_refl) in Ew|].
    rewrite (Hc eq_refl). f_equal. apply IH; [done|].
    intros _ d Hd. destruct s as [|d' s]; [done|]. injection Hd as ->.
    destruct (isWhiteSpace d) eqn:Ed; [|done]. exfalso. by apply Hcd.
  - f_equal. by apply IH.
Qed.

(** X9. Normalizing a title twice changes nothing the second time, as soon
    as the host's lower-casing leaves the normalized title as it is. *)
Theorem normalizeTitle_idempotent v n :
  normalizeTitle v = Ok n →
  toLowerCase n = n →
  normalizeTitle (JStr n) = Ok n.
Proof.
  intros Hn Hlow.
  destruct (normalizeTitle_normalTitle _ _ Hn) as (Hsep & Hsp & Hnd & Hhd & Hlast).
  unfold normalizeTitle. simpl.
  destruct (bool_decide (n = [])) eqn:E; simpl.
  { apply bool_decide_eq_true in E. by subst. }
  rewrite Hlow.
  assert (Htrim : trim n = n).
  { unfold trim. by rewrite dropWhile_id, dropWhileEnd_id. }
  assert (Hrep : replaceSeparators n = n).
  { unfold replaceSeparators. clear -Hsep.
    induction Hsep as [|c s Hc _ IH]; [done|]. simpl. by rewrite Hc, IH. }
  by rewrite Htrim, Hrep, collapseWhiteSpace_id, Htrim.
Qed.

(** ** Further properties of the reconciliation loop *)







(** X12. New resources are reconciled independently of one another: the
    run on two lists put end to end is the run on each, with the resulting
    lists put end to end and the counters added; it throws when either
    does. *)
Theorem run_on_appended_lists current new1 new2 :
  mergeAndUpdateResources current (new1 ++ new2)
  = (s1 ← mergeAndUpdateResources current new1;
     s2 ← mergeAndUpdateResources current new2;
     Ok {| currentResourcesArray := current;
           newResources := newResources s1 ++ newResources s2;
           exactMatched := exactMatched s1 + exactMatched s2;
           fuzzyMatched := fuzzyMatched s1 + fuzzyMatched s2;
           newCount := newCount s1 + newCount s2 |}).
Proof.
  destruct (mergeAndUpdateResources current new1) as [s1|e1] eqn:H1.
  - destruct (mergeAndUpdateResources_inv _ _ _ H1) as (bs1 & Hbs1 & ->).
    destruct (mergeAndUpdateResources current new2) as [s2|e2] eqn:H2.
    + destruct (mergeAndUpdateResources_inv _ _ _ H2) as (bs2 & Hbs2 & ->).
      rewrite (mergeAndUpdateResources_candidates _ _ (bs1 ++ bs2))
        by by apply Forall2_app.
      simpl. f_equal. unfold finalState. apply mkState_eq; [done|..].
      * apply zip_with_app. by eapply Forall2_length.
      * by rewrite List.filter_app, length_app.
      * by rewrite List.filter_app, length_app.
      * by rewrite List.filter_app, length_app.
    + simpl.
      destruct (mergeAndUpdateResources current (new1 ++ new2)) as [st|e] eqn:H;
        [|by rewrite (Throw_TypeError e), (Throw_TypeError e2)].
      destruct (mergeAndUpdateResources_inv _ _ _ H) as (bs & Hbs & _).
      apply Forall2_app_inv_l in Hbs as (b1 & b2 & _ & Hb2 & _).
      rewrite (mergeAndUpdateResources_candidates _ _ _ Hb2) in H2. done.
  - simpl.
    destruct (mergeAndUpdateResources current (new1 ++ new2)) as [st|e] eqn:H;
      [|by rewrite (Throw_TypeError e), (Throw_TypeError e1)].
    destruct (mergeAndUpdateResources_inv _ _ _ H) as (bs & Hbs & _).
    apply Forall2_app_inv_l in Hbs as (b1 & b2 & Hb1 & _ & _).
    rewrite (mergeAndUpdateResources_candidates _ _ _ Hb1) in H1. done.
Qed.

Lemma findBestMatch_same_key r r' current :
  title r = title r' → source r = source r' →
  findBestMatch r current = findBestMatch r' current.
Proof.
  intros Ht Hs. unfold findBestMatch. generalize noCandidate.
  assert (Hstep : ∀ b c, considerCurrent r b c = considerCurrent r' b c)
    by (intros b c; unfold considerCurrent; by rewrite Ht, Hs).
  induction current as [|c current IH]; intros b; simpl; [done|].
  rewrite Hstep. destruct (considerCurrent r' b c); simpl; [apply IH|done].
Qed.

Lemma weeks_annotate r r' b :
  weeks_on_list (annotate r b) = weeks_on_list (annotate r' b).
Proof. unfold annotate. by destruct (accepted b). Qed.

(** X13. The run reads nothing of a new resource but its title and its
    source: two lists of new resources that agree on these, position by
    position, get the same counters written and the same tallies, whatever
    their incoming [weeks_on_list] and [type] are. *)
Theorem only_title_and_source_are_read current new new' st :
  Forall2 (λ r r', title r = title r' ∧ source r = source r') new new' →
  mergeAndUpdateResources current new = Ok st →
  ∃ st',
    mergeAndUpdateResources current new' = Ok st' ∧
    weeks_on_list <$> newResources st' = weeks_on_list <$> newResources st ∧
    exactMatched st' = exactMatched st ∧
    fuzzyMatched st' = fuzzyMatched st ∧
    newCount st' = newCount st.
Proof.
  intros Hsame Hst.
  destruct (mergeAndUpdateResources_inv _ _ _ Hst) as (bs & Hbs & ->).
  assert (Hbs' : Forall2 (λ r b, findBestMatch r current = Ok b) new' bs).
  { clear Hst. revert new' Hsame.
    induction Hbs as [|r b new bs Hb _ IH]; intros new' Hsame.
    - apply Forall2_nil_inv_l in Hsame as ->. constructor.
    - apply Forall2_cons_inv_l in Hsame as (r' & l' & [Ht Hs] & Hl & ->).
      constructor; [|by apply IH].
      by rewrite <- (findBestMatch_same_key r r'). }
  exists (finalState current new' bs).
  split; [by apply mergeAndUpdateResources_candidates|]. simpl.
  split; [|done].
  clear Hst. revert new' Hsame Hbs'.
  induction Hbs as [|r b new bs Hb _ IH]; intros new' Hsame Hbs'.
  - by apply Forall2_nil_inv_l in Hsame as ->.
  - apply Forall2_cons_inv_l in Hsame as (r' & l' & _ & Hl & ->).
    apply Forall2_cons in Hbs' as [_ Hbs']. simpl.
    rewrite (weeks_annotate r' r). f_equal. by apply IH.
Qed.

(** X14. For resources whose titles and sources are non-empty strings, a
    new resource is counted as an exact match exactly when some current
    resource has the same normalized title and the same normalized URL. *)
Theorem exact_iff_same_normalized newResource current b :
  nonEmptyString (title newResource) ∧ nonEmptyString (source newResource) →
  Forall (λ c, nonEmptyString (title c) ∧ nonEmptyString (source c)) current →
  findBestMatch newResource current = Ok b →
  countsExact b = true ↔ ∃ c, c ∈ current ∧ sameNormalized newResource c.
Proof.
  intros [Hrt Hrs] Hcur Hb.
  destruct (findBestMatch_inv _ _ _ Hb) as (scores & Hsc & Hbest).
  destruct (counts_by_score _ _ _ Hbest) as (He & _ & _).
  rewrite He, Qgeb_le. split.
  - intros Hge. destruct Hbest as [_ Hm].
    destruct (bestMatch b) as [m|]; [|subst b; simpl in Hge; lra].
    destruct Hm as (i & Hi & Hsi & _).
    destruct (Forall2_lookup_l _ _ _ _ _ Hsc Hi) as (s & Hs & Hp).
    assert (s = bestScore b) as -> by congruence.
    exists m. split; [by eapply list_elem_of_lookup_2|].
    by eapply pairScore_exact_inv.
  - intros (c & Hin & Hsame).
    rewrite Forall_forall in Hcur. destruct (Hcur c Hin) as [Hct Hcs].
    apply list_elem_of_lookup in Hin as [i Hi].
    destruct (Forall2_lookup_l _ _ _ _ _ Hsc Hi) as (s & Hs & Hp).
    rewrite (pairScore_sameNormalized newResource c) in Hp by done.
    injection Hp as <-. destruct Hbest as [Hmax _]. by apply (Hmax i).
Qed.

(** ** Exceptions and the order of the current resources *)

Lemma throwsOn_spec v1 v2 :
  throwsOn v1 v2 = true ↔
  truthy v1 = true ∧ truthy v2 = true ∧
  (isString v1 = false ∨ isString v2 = false).
Proof.
  unfold throwsOn.
  destruct (truthy v1), (truthy v2), (isString v1), (isString v2); simpl;
    intuition congruence.
Qed.

Lemma pairScore_Throw newResource currentResource :
  pairScore newResource currentResource = Throw TypeError ↔
  pairThrows newResource currentResource = true.
Proof.
  unfold pairScore, pairThrows. rewrite orb_true_iff, !throwsOn_spec.
  rewrite <- titleSimilarity_Throw, <- urlSimilarity_Throw.
  destruct (titleSimilarity _ _) as [t|[]]; simpl; [|by intuition].
  destruct (urlSimilarity _ _) as [u|[]]; simpl; [|by intuition].
  split; [done|]. by intros [?|?].
Qed.

Lemma pairScore_Ok newResource currentResource :
  pairThrows newResource currentResource = false →
  ∃ s, pairScore newResource currentResource = Ok s.
Proof.
  intros H. destruct (pairScore _ _) as [s|[]] eqn:E; [by exists s|].
  apply pairScore_Throw in E. congruence.
Qed.

Lemma findBestMatch_total newResource current :
  Forall (λ c, pairThrows newResource c = false) current →
  ∃ b, findBestMatch newResource current = Ok b.
Proof.
  unfold findBestMatch.
  induction current as [|x current IH] using rev_ind; intros Hc.
  { by exists noCandidate. }
  apply Forall_app in Hc as [Hc Hx]. apply Forall_inv in Hx.
  destruct (IH Hc) as (b & Hb). destruct (pairScore_Ok _ _ Hx) as [s Hs].
  rewrite forEach_app, Hb. simpl.
  rewrite considerCurrent_pairScore, Hs. simpl. eauto.
Qed.

Lemma findBestMatch_no_throw newResource current b :
  findBestMatch newResource current = Ok b →
  Forall (λ c, pairThrows newResource c = false) current.
Proof.
  intros Hb. destruct (findBestMatch_inv _ _ _ Hb) as (scores & Hsc & _).
  clear Hb. induction Hsc as [|c s current scores Hs _ IH]; constructor;
    [|done].
  apply not_true_iff_false. intros H. apply pairScore_Throw in H. congruence.
Qed.

Lemma mergeAndUpdateResources_Throw current new :
  mergeAndUpdateResources current new = Throw TypeError ↔
  ∃ r c, r ∈ new ∧ c ∈ current ∧ pairThrows r c = true.
Proof.
  split.
  - intros Hrun.
    destruct (decide (Exists (λ r, Exists (λ c, pairThrows r c = true) current)
                        new)) as [Hex|Hno].
    + apply Exists_exists in Hex as (r & Hr & Hex).
      apply Exists_exists in Hex as (c & Hc & Hp). by exists r, c.
    + exfalso. apply not_Exists_Forall in Hno; [|intros r; apply _].
      assert (∃ bs, Forall2 (λ r b, findBestMatch r current = Ok b) new bs)
        as [bs Hbs].
      { clear Hrun. induction Hno as [|r new Hr _ [bs IH]]; [by exists []|].
        simpl in Hr. apply not_Exists_Forall in Hr; [|intros c; apply _].
        destruct (findBestMatch_total r current) as [b Hb].
        { eapply Forall_impl; [exact Hr|]. simpl. intros c Hc.
          by apply not_true_iff_false. }
        exists (b :: bs). by constructor. }
      rewrite (mergeAndUpdateResources_candidates _ _ _ Hbs) in Hrun. done.
  - intros (r & c & Hr & Hc & Hp).
    destruct (mergeAndUpdateResources current new) as [st|[]] eqn:Hrun; [|done].
    exfalso.
    destruct (mergeAndUpdateResources_inv _ _ _ Hrun) as (bs & Hbs & _).
    apply list_elem_of_lookup in Hr as [k Hk].
    destruct (Forall2_lookup_l _ _ _ _ _ Hbs Hk) as (b & _ & Hb).
    apply findBestMatch_no_throw in Hb. rewrite Forall_forall in Hb.
    specialize (Hb c Hc). congruence.
Qed.






(** ** Arrays with elements that are not objects *)

Lemma forEach_Throw {St A : Type} (body : St → A → result St) l x s :
  x ∈ l → (∀ s', body s' x = Throw TypeError) →
  forEach body l s = Throw TypeError.
Proof.
  intros Hx Hbody. revert s.
  induction l as [|a l IH]; intros s; [by apply elem_of_nil in Hx|].
  apply elem_of_cons in Hx as [->|Hx]; simpl.
  - by rewrite Hbody.
  - destruct (body s a) as [s'|e]; simpl; [by apply IH|].
    apply Throw_TypeError.
Qed.

Lemma fieldsOf_fields e : e ≠ Null → fieldsOf e = Ok (elementFields e).
Proof. by destruct e. Qed.

Lemma scan_elements newResource current b :
  newResource ≠ Null → Null ∉ current →
  forEach (considerCurrentElement newResource) current b
  = forEach (considerCurrent (elementFields newResource)) (elementFields <$> current) b.
Proof.
  intros Hn. revert b.
  induction current as [|c current IH]; intros b Hc; [done|].
  apply not_elem_of_cons in Hc as [Hc Hcs]. csimpl.
  assert (E : considerCurrentElement newResource b c
              = considerCurrent (elementFields newResource) b
                  (elementFields c)).
  { by destruct newResource, c. }
  rewrite E.
  destruct (considerCurrent _ b _) as [b'|]; simpl; [by apply IH|done].
Qed.

Lemma scan_elements_null_current newResource current b :
  Null ∈ current →
  forEach (considerCurrentElement newResource) current b = Throw TypeError.
Proof.
  intros Hc. apply (forEach_Throw _ _ Null); [done|].
  intros b'. unfold considerCurrentElement.
  by destruct (fieldsOf newResource) as [n|[]].
Qed.

Lemma updateElement_null current st :
  updateElement current st Null = Throw TypeError.
Proof.
  unfold updateElement. destruct current as [|c current]; [done|].
  by simpl.
Qed.

Lemma pairThrows_noFields_l c : pairThrows noFields c = false.
Proof. done. Qed.

Lemma pairThrows_noFields_r r : pairThrows r noFields = false.
Proof.
  unfold pairThrows, throwsOn. simpl. by rewrite !andb_false_r.
Qed.

(** The run on elements of which none is [null], in terms of the scans
    of the fields. *)
Lemma updateElement_fields current st e b :
  e ≠ Null → Null ∉ current →
  findBestMatch (elementFields e) (elementFields <$> current) = Ok b →
  ∃ e' st',
    updateElement current st e = Ok st' ∧
    outElements st' = outElements st ++ [e'] ∧
    (∀ r, e = Object r → e' = Object (annotate r b)) ∧
    (e = Primitive → e' = Primitive) ∧
    outExact st' = outExact st + (if countsExact b then 1 else 0) ∧
    outFuzzy st' = outFuzzy st + (if countsFuzzy b then 1 else 0) ∧
    outNew st' = outNew st + (if countsNew b then 1 else 0).
Proof.
  intros He Hc Hb. unfold updateElement.
  rewrite scan_elements by done. unfold findBestMatch in Hb. rewrite Hb.
  simpl. unfold annotate, countsExact, countsFuzzy, countsNew.
  destruct (accepted b) as [m|].
  - destruct e as [r| |]; [|done|]; simpl;
      destruct (matchType b); simpl; eexists _, _;
      (split; [done|]); simpl; (split; [done|]);
      (split; [by intros ? [= <-] || done|]); (split; [done|]); lia.
  - destruct e as [r| |]; [|done|]; simpl; eexists _, _;
      (split; [done|]); simpl; (split; [done|]);
      (split; [by intros ? [= <-] || done|]); (split; [done|]); lia.
Qed.

Lemma mergeAndUpdateElements_Ok current new st :
  Null ∉ new → Null ∉ current →
  Forall (λ e, Forall (λ c, pairThrows (elementFields e) (elementFields c) = false) current)
    new →
  ∃ st', forEach (updateElement current) new st = Ok st' ∧
         length (outElements st') = length (outElements st) + length new ∧
         outExact st' + outFuzzy st' + outNew st'
         = outExact st + outFuzzy st + outNew st + length new.
Proof.
  intros Hn Hc Hpairs. revert st.
  induction new as [|e new IH]; intros st.
  { exists st. simpl. split; [done|]. lia. }
  apply not_elem_of_cons in Hn as [He Hn].
  apply Forall_cons in Hpairs as [Hpair Hpairs].
  destruct (findBestMatch_total (elementFields e) (elementFields <$> current)) as [b Hb].
  { by apply Forall_fmap. }
  destruct (updateElement_fields current st e b)
    as (e' & st1 & Hst1 & Hel & _ & _ & H1 & H2 & H3); [done..|].
  destruct (IH Hn Hpairs st1) as (st' & Hst' & Hlen & Hsum).
  exists st'. simpl. rewrite Hst1. simpl. split; [done|].
  rewrite Hel, length_app in Hlen. simpl in *.
  pose proof (counts_partition b). lia.
Qed.

(** X10. With no current resource the run throws exactly when some new
    element is [null].  Otherwise every new element is counted as new,
    whatever it holds: an object leaves with [weeks_on_list] 1, a number,
    a string or a boolean as it came. *)
Theorem no_current_resources_all_new (new : list element) :
  mergeAndUpdateElements [] new
  = if decide (Null ∈ new) then Throw TypeError
    else Ok {| outElements := markNew <$> new;
               outExact := 0; outFuzzy := 0; outNew := length new |}.
Proof.
  unfold mergeAndUpdateElements.
  destruct (decide (Null ∈ new)) as [Hn|Hn].
  { apply (forEach_Throw _ _ Null); [done|]. apply updateElement_null. }
  assert (H : ∀ st, forEach (updateElement []) new st
              = Ok {| outElements := outElements st ++ (markNew <$> new);
                      outExact := outExact st; outFuzzy := outFuzzy st;
                      outNew := outNew st + length new |}).
  { induction new as [|e new IH]; intros st.
    - simpl. rewrite app_nil_r, Nat.add_0_r. by destruct st.
    - apply not_elem_of_cons in Hn as [He Hn]. simpl.
      destruct e as [r| |]; [|done|]; simpl; rewrite (IH Hn); simpl;
        rewrite <- app_assoc; do 2 f_equal; lia. }
  by rewrite H.
Qed.

Lemma run_throws_iff_some_pair_throws_aux (current new : list element) :
  mergeAndUpdateElements current new = Throw TypeError ↔
  Null ∈ new ∨ (new ≠ [] ∧ Null ∈ current) ∨
  ∃ r c, Object r ∈ new ∧ Object c ∈ current ∧ pairThrows r c = true.
Proof.
  unfold mergeAndUpdateElements. split.
  - intros Hrun.
    destruct (decide (Null ∈ new)) as [|Hn]; [by left|].
    destruct new as [|e0 new0] eqn:Enew; [done|]. rewrite <- Enew in *.
    destruct (decide (Null ∈ current)) as [|Hc].
    { right. left. split; [by rewrite Enew|done]. }
    right. right.
    destruct (decide (Exists (λ e, Exists (λ c,
                pairThrows (elementFields e) (elementFields c) = true) current) new))
      as [Hex|Hno].
    + apply Exists_exists in Hex as (e & He & Hex).
      apply Exists_exists in Hex as (c & Hc' & Hp).
      destruct e as [r| |]; [|by rewrite pairThrows_noFields_l in Hp..].
      destruct c as [c| |]; [|by rewrite pairThrows_noFields_r in Hp..].
      by exists r, c.
    + exfalso. apply not_Exists_Forall in Hno; [|intros; apply _].
      destruct (mergeAndUpdateElements_Ok current new
                  {| outElements := []; outExact := 0; outFuzzy := 0;
                     outNew := 0 |}) as (st' & Hst' & _); [done|done| |].
      * eapply Forall_impl; [exact Hno|]. simpl. intros e He.
        apply not_Exists_Forall in He; [|intros; apply _].
        eapply Forall_impl; [exact He|]. simpl. intros c Hc'.
        by apply not_true_iff_false.
      * congruence.
  - intros [Hn|[[Hnew Hc]|(r & c & Hr & Hc & Hp)]].
    + apply (forEach_Throw _ _ Null); [done|]. apply updateElement_null.
    + destruct new as [|e0 new0]; [done|].
      apply (forEach_Throw _ _ e0); [apply list_elem_of_here|]. intros st.
      unfold updateElement. by rewrite scan_elements_null_current.
    + apply (forEach_Throw _ _ (Object r)); [done|]. intros st.
      unfold updateElement.
      rewrite (forEach_Throw _ _ (Object c)); [done|done|].
      intros b. unfold considerCurrentElement. simpl.
      rewrite considerCurrent_pairScore.
      apply pairScore_Throw in Hp. by rewrite Hp.
Qed.


(** On arrays of objects the run on elements is the run on resources. *)
Lemma mergeAndUpdateElements_objects current new :
  mergeAndUpdateElements (Object <$> current) (Object <$> new)
  = (st ← mergeAndUpdateResources current new;
     Ok {| outElements := Object <$> newResources st;
           outExact := exactMatched st; outFuzzy := fuzzyMatched st;
           outNew := newCount st |}).
Proof.
  assert (Hnull : ∀ l : list Resource, Null ∉ Object <$> l).
  { intros l H. apply list_elem_of_fmap in H as (r & Hr & _). done. }
  assert (Hfields : ∀ l : list Resource, elementFields <$> (Object <$> l) = l).
  { intros l. rewrite <- list_fmap_compose. apply list_fmap_id. }
  unfold mergeAndUpdateElements.
  assert (Hgen : ∀ st bs,
            Forall2 (λ r b, findBestMatch r current = Ok b) new bs →
            forEach (updateElement (Object <$> current)) (Object <$> new) st
            = Ok {| outElements :=
                      outElements st ++ (Object <$> zip_with annotate new bs);
                    outExact :=
                      outExact st + length (List.filter countsExact bs);
                    outFuzzy :=
                      outFuzzy st + length (List.filter countsFuzzy bs);
                    outNew := outNew st + length (List.filter countsNew bs) |}).
  { intros st bs Hbs. revert st.
    induction Hbs as [|r b new bs Hb _ IH]; intros st.
    - simpl. rewrite app_nil_r, !Nat.add_0_r. by destruct st.
    - csimpl.
      destruct (updateElement_fields (Object <$> current) st (Object r) b)
        as (e' & st1 & Hst1 & Hel & He' & _ & H1 & H2 & H3);
        [done|apply Hnull|by rewrite Hfields|].
      rewrite Hst1. simpl. rewrite IH, Hel, (He' r eq_refl), H1, H2, H3.
      rewrite <- app_assoc. simpl.
      destruct (countsExact b), (countsFuzzy b), (countsNew b); simpl;
        f_equal; f_equal; lia. }
  destruct (mergeAndUpdateResources current new) as [st|e] eqn:Hrun; simpl.
  - destruct (mergeAndUpdateResources_inv _ _ _ Hrun) as (bs & Hbs & ->).
    by rewrite (Hgen _ bs Hbs).
  - rewrite (Throw_TypeError e) in Hrun.
    apply mergeAndUpdateResources_Throw in Hrun as (r & c & Hr & Hc & Hp).
    rewrite (Throw_TypeError e).
    apply (proj2 (run_throws_iff_some_pair_throws_aux _ _)).
    right. right. exists r, c.
    split; [by apply list_elem_of_fmap_2|].
    split; [by apply list_elem_of_fmap_2|done].
Qed.

End Merge.

(** ** The script on concrete documents *)

Ltac wellFormed_list :=
  repeat (apply Forall_cons; split; [split; reflexivity|]); apply Forall_nil_2.

(** The scenario of the documentation: a title that differs in punctuation
    and a source that differs in protocol, [www] and trailing slash. *)
Example clean_code_scenario :
  mergeAndUpdateResources asciiLower [cleanCode] [cleanCodeAgain]
  = Ok {| currentResourcesArray := [cleanCode];
          newResources := [set_weeks_on_list cleanCodeAgain (JNum 4)];
          exactMatched := 1; fuzzyMatched := 0; newCount := 0 |}.
Proof. vm_compute. reflexivity. Qed.

(** A match at combined score 1.2 is labelled weak and counted as fuzzy. *)
Example weak_match_counts_as_fuzzy :
  findBestMatch asciiLower pragmaticReworded [pragmatic]
  = Ok {| bestMatch := Some pragmatic; bestScore := 1.2;
          matchType := MatchWeak |} ∧
  mergeAndUpdateResources asciiLower [pragmatic] [pragmaticReworded]
  = Ok {| currentResourcesArray := [pragmatic];
          newResources := [set_weeks_on_list pragmaticReworded (JNum 7)];
          exactMatched := 0; fuzzyMatched := 1; newCount := 0 |}.
Proof. split; vm_compute; reflexivity. Qed.

Lemma matcher_table_candidate_acceptance_witness :
  wellFormed cleanCodeAgain ∧ Forall wellFormed shelf ∧
  ∃ b sims,
    findBestMatch asciiLower cleanCodeAgain shelf = Ok b ∧
    Forall2 (λ c tu,
      titleSimilarity asciiLower (title cleanCodeAgain) (title c) = Ok tu.1 ∧
      urlSimilarity asciiLower (source cleanCodeAgain) (source c) = Ok tu.2)
      shelf sims ∧
    Forall2 (λ c tu,
      pairScore asciiLower cleanCodeAgain c = Ok (score tu.1 tu.2) ∧
      firstSatisfied decisionTable tu.1 tu.2 (score tu.1 tu.2)) shelf sims ∧
    bestCandidate shelf (map (λ tu, score tu.1 tu.2) sims) b ∧
    (∀ m, accepted b = Some m ↔
          bestMatch b = Some m ∧ (1.2 <= bestScore b)%Q) ∧
    (accepted b = None ↔ (bestScore b < 1.2)%Q).
Proof.
  unfold shelf.
  destruct (matcher_table_candidate_acceptance asciiLower cleanCodeAgain
              [cleanCode; pragmatic]) as [Hpart Htotal].
  split; [split; reflexivity|]. split; [wellFormed_list|].
  destruct Htotal as [b Hb]; [split; reflexivity|wellFormed_list|].
  destruct (Hpart b Hb) as [sims Hsims].
  exists b, sims. split; [exact Hb|exact Hsims].
Defined.



Ltac nonEmpty_list :=
  repeat (apply Forall_cons; split;
          [split; eexists; (split; [reflexivity|discriminate])|]);
  apply Forall_nil_2.


Ltac counterOk_list :=
  repeat (apply Forall_cons; split;
          [simpl; first [exact I|unfold Qle; simpl; lia]|]);
  apply Forall_nil_2.

Lemma output_weeks_at_least_one_witness :
  Forall (λ c, counterOk (weeks_on_list c)) shelfWithZero ∧
  Forall wellFormed shelfWithZero ∧ Forall wellFormed arrivalsForZero ∧
  ∃ st, mergeAndUpdateResources asciiLower shelfWithZero arrivalsForZero = Ok st ∧
        Forall (λ r, atLeastOne (weeks_on_list r)) (newResources st).
Proof.
  unfold shelfWithZero, arrivalsForZero.
  assert (Hw : Forall (λ c, counterOk (weeks_on_list c))
                 [cleanCode; sreUncounted]) by counterOk_list.
  destruct (output_weeks_at_least_one asciiLower [cleanCode; sreUncounted]
              [cleanCodeAgain; sreAgain; untitled] Hw) as [Hpart Htotal].
  split; [exact Hw|]. split; [wellFormed_list|]. split; [wellFormed_list|].
  destruct Htotal as [st Hst]; [wellFormed_list|wellFormed_list|].
  exists st. split; [exact Hst|exact (Hpart st Hst)].
Defined.





(** *** Where the script departs from the specification *)


(** The addition of the host on counters: exact on small integers, rounded
    from 2^53 on, and without effect on 1 for a counter as small as
    2^-60. *)
Example addOne_rounds :
  addOne (Finite (inject_Z 3)) = Finite (inject_Z 4) ∧
  addOne (Finite (5 # 2)) = Finite (7 # 2) ∧
  addOne (Finite (inject_Z (2 ^ 53))) = Finite (inject_Z (2 ^ 53)) ∧
  addOne (Finite (inject_Z (2 ^ 53 + 2))) = Finite (inject_Z (2 ^ 53 + 4)) ∧
  addOne (Finite (inject_Z (- 2 ^ 53))) = Finite (inject_Z (- 2 ^ 53 + 1)) ∧
  addOne (Finite (1 # 1152921504606846976)) = Finite (inject_Z 1).
Proof. repeat split; vm_compute; reflexivity. Qed.

(** A matched resource leaves with the counter 1 when the counter of its
    match is a number too small to change 1. *)
Example barely_counted_match_gets_one :
  mergeAndUpdateResources asciiLower [cleanCodeBarelyCounted] [cleanCodeAgain]
  = Ok {| currentResourcesArray := [cleanCodeBarelyCounted];
          newResources := [set_weeks_on_list cleanCodeAgain (JNum 1)];
          exactMatched := 1; fuzzyMatched := 0; newCount := 0 |}.
Proof. vm_compute. reflexivity. Qed.

(** Against C6: a prior counter of -1 is written back as 0, which is below
    1, and a prior counter that is the string ["3"] is written back as the
    string ["31"], which is not a number. *)
Lemma counter_below_one_is_written :
  (∃ st, mergeAndUpdateResources asciiLower [cleanCodeOverdrawn]
           [cleanCodeAgain] = Ok st ∧
         weeks_on_list <$> newResources st = [JNum 0] ∧
         ¬ atLeastOne (JNum 0)) ∧
  (∃ st, mergeAndUpdateResources asciiLower [sreMiscounted] [sreAgain]
         = Ok st ∧
         weeks_on_list <$> newResources st = [JStr (str "31")] ∧
         ¬ atLeastOne (JStr (str "31"))).
Proof.
  split.
  - eexists. split; [vm_compute; reflexivity|]. split; [reflexivity|].
    unfold atLeastOne, JNum, Qle. simpl. lia.
  - eexists. split; [vm_compute; reflexivity|]. split; [reflexivity|].
    intros [].
Qed.




(** ** Further properties on the concrete documents *)

Ltac elem_of_literal :=
  repeat first [apply list_elem_of_here | apply list_elem_of_further].

Lemma score_monotone_witness :
  (0.8 ∈ titleLevels ∧ 0.9 ∈ titleLevels ∧
   0.7 ∈ urlLevels ∧ 1.0 ∈ urlLevels ∧ 0.8 <= 0.9 ∧ 0.7 <= 1.0)%Q ∧
  (score 0.8 0.7 <= score 0.9 1.0)%Q.
Proof.
  assert (H1 : (0.8 <= 0.9)%Q) by (unfold Qle; simpl; lia).
  assert (H2 : (0.7 <= 1.0)%Q) by (unfold Qle; simpl; lia).
  assert (T1 : (0.8 ∈ titleLevels)%Q) by (unfold titleLevels; elem_of_literal).
  assert (T2 : (0.9 ∈ titleLevels)%Q) by (unfold titleLevels; elem_of_literal).
  assert (U1 : (0.7 ∈ urlLevels)%Q) by (unfold urlLevels; elem_of_literal).
  assert (U2 : (1.0 ∈ urlLevels)%Q) by (unfold urlLevels; elem_of_literal).
  split; [by repeat split|].
  exact (score_monotone 0.8%Q 0.9%Q 0.7%Q 1.0%Q T1 T2 U1 U2 H1 H2).
Defined.

Lemma matched_iff_some_pair_qualifies_witness :
  let b := {| bestMatch := Some cleanCode; bestScore := 2.0;
              matchType := MatchExact |} in
  findBestMatch asciiLower cleanCodeAgain shelf = Ok b ∧
  (is_Some (accepted b) ↔
   ∃ c t u, c ∈ shelf ∧
            titleSimilarity asciiLower (title cleanCodeAgain) (title c) = Ok t ∧
            urlSimilarity asciiLower (source cleanCodeAgain) (source c) = Ok u ∧
            qualifies t u).
Proof.
  intros b. split; [vm_compute; reflexivity|].
  apply (matched_iff_some_pair_qualifies asciiLower cleanCodeAgain shelf b).
  vm_compute; reflexivity.
Defined.

Lemma normalizeUrl_shape_witness :
  let url := source cleanCodeAgain in
  let n := str "example.com/book" in
  normalizeUrl asciiLower url = Ok n ∧
  ((truthy url = false ∧ n = [])
   ∨ ∃ s pre k,
       url = JStr s ∧ pre ∈ removablePrefixes ∧
       asciiLower s = pre ++ n ++ replicate k ch_slash ∧
       last n ≠ Some ch_slash ∧
       n = removeTrailingSlashes (removeWww (removeProtocol (asciiLower s)))).
Proof.
  intros url n. split; [vm_compute; reflexivity|].
  apply (normalizeUrl_shape asciiLower url n). vm_compute; reflexivity.
Defined.

Lemma normalizeTitle_normal_form_witness :
  let n := str "clean code a handbook" in
  normalizeTitle asciiLower (title cleanCode) = Ok n ∧ normalTitle n.
Proof.
  intros n. split; [vm_compute; reflexivity|].
  apply (normalizeTitle_normal_form asciiLower (title cleanCode) n).
  vm_compute; reflexivity.
Defined.

Lemma normalizeTitle_idempotent_witness :
  let n := str "clean code a handbook" in
  normalizeTitle asciiLower (title cleanCode) = Ok n ∧ asciiLower n = n ∧
  normalizeTitle asciiLower (JStr n) = Ok n.
Proof.
  intros n. split; [vm_compute; reflexivity|]. split; [reflexivity|].
  apply (normalizeTitle_idempotent asciiLower (title cleanCode) n);
    [vm_compute; reflexivity|reflexivity].
Defined.



Lemma only_title_and_source_are_read_witness :
  let st :=
    {| currentResourcesArray := shelf;
       newResources := [set_weeks_on_list cleanCode (JNum 4)];
       exactMatched := 1; fuzzyMatched := 0; newCount := 0 |} in
  Forall2 (λ r r', title r = title r' ∧ source r = source r')
    [cleanCode] [cleanCodeOlder] ∧
  mergeAndUpdateResources asciiLower shelf [cleanCode] = Ok st ∧
  ∃ st',
    mergeAndUpdateResources asciiLower shelf [cleanCodeOlder] = Ok st' ∧
    weeks_on_list <$> newResources st' = weeks_on_list <$> newResources st ∧
    exactMatched st' = exactMatched st ∧
    fuzzyMatched st' = fuzzyMatched st ∧
    newCount st' = newCount st.
Proof.
  intros st.
  assert (Hsame : Forall2 (λ r r', title r = title r' ∧ source r = source r')
                    [cleanCode] [cleanCodeOlder]).
  { apply List.Forall2_cons; [split; reflexivity|apply List.Forall2_nil]. }
  split; [exact Hsame|]. split; [vm_compute; reflexivity|].
  apply (only_title_and_source_are_read asciiLower shelf [cleanCode]
           [cleanCodeOlder] st Hsame).
  vm_compute; reflexivity.
Defined.

Lemma exact_iff_same_normalized_witness :
  let b := {| bestMatch := Some cleanCode; bestScore := 2.0;
              matchType := MatchExact |} in
  (nonEmptyString (title cleanCodeAgain) ∧
   nonEmptyString (source cleanCodeAgain)) ∧
  Forall (λ c, nonEmptyString (title c) ∧ nonEmptyString (source c)) shelf ∧
  findBestMatch asciiLower cleanCodeAgain shelf = Ok b ∧
  (countsExact b = true ↔
   ∃ c, c ∈ shelf ∧ sameNormalized asciiLower cleanCodeAgain c).
Proof.
  intros b.
  assert (Hr : nonEmptyString (title cleanCodeAgain) ∧
               nonEmptyString (source cleanCodeAgain))
    by (split; eexists; (split; [reflexivity|discriminate])).
  assert (Hc : Forall (λ c, nonEmptyString (title c) ∧
                            nonEmptyString (source c)) shelf)
    by (unfold shelf; nonEmpty_list).
  split; [exact Hr|]. split; [exact Hc|]. split; [vm_compute; reflexivity|].
  apply (exact_iff_same_normalized asciiLower cleanCodeAgain shelf b Hr Hc).
  vm_compute; reflexivity.
Defined.


(** ** The clean-up of the model's answer *)

Lemma removeAll_skip pat k s :
  removeAll pat k s = removeAll pat 0 (drop k s).
Proof.
  revert k. induction s as [|c s IH]; intros [|k]; try done.
  simpl drop. rewrite <- IH. done.
Qed.

Lemma removeAll_unfold pat s :
  pat ≠ [] →
  removeAll pat 0 s =
  match s with
  | [] => []
  | c :: s' =>
      match stripPrefix pat s with
      | Some rest =>
          removeAll pat 0
            (drop (if startsWith rest [ch_newline] then 1 else 0) rest)
      | None => c :: removeAll pat 0 s'
      end
  end.
Proof.
  intros Hp. destruct s as [|c s']; [done|].
  cbn [removeAll].
  destruct (stripPrefix pat (c :: s')) as [rest|] eqn:E; [|done].
  rewrite removeAll_skip. f_equal.
  apply stripPrefix_Some in E. destruct pat as [|p pat']; [done|].
  injection E as -> ->. simpl Nat.pred.
  by rewrite drop_app_add'.
Qed.

Lemma fence_literal : fence = [ch_backtick; ch_backtick; ch_backtick].
Proof. reflexivity. Qed.

Lemma removeAll_fence_other c s :
  c ≠ ch_backtick →
  removeAll fence 0 (c :: s) = c :: removeAll fence 0 s.
Proof.
  intros Hc. rewrite removeAll_unfold by done. rewrite fence_literal.
  cbn [stripPrefix].
  destruct (N.eqb_spec ch_backtick c) as [E|_]; [by subst|done].
Qed.

Lemma startsWith_after_removeAll c s :
  stripPrefix fence (c :: s) = None →
  startsWith (c :: removeAll fence 0 s) fence = false.
Proof.
  unfold startsWith. rewrite fence_literal. cbn [stripPrefix].
  destruct (N.eqb_spec ch_backtick c) as [<-|_]; [|done].
  destruct s as [|d s]; [done|].
  destruct (N.eqb_spec ch_backtick d) as [<-|Hd].
  2:{ intros _. rewrite <- fence_literal, removeAll_fence_other by done.
      cbn [stripPrefix]. by destruct (N.eqb_spec ch_backtick d). }
  destruct s as [|e s]; [done|].
  destruct (N.eqb_spec ch_backtick e) as [<-|He]; [done|]. intros _.
  rewrite <- fence_literal at 1.
  rewrite (removeAll_unfold fence) by done. rewrite fence_literal.
  cbn [stripPrefix]. rewrite N.eqb_refl.
  destruct (N.eqb_spec ch_backtick e) as [|_]; [done|].
  rewrite <- fence_literal, removeAll_fence_other by done.
  cbn [stripPrefix]. rewrite N.eqb_refl.
  by destruct (N.eqb_spec ch_backtick e).
Qed.

Lemma removeAll_fence_clean s :
  includes (removeAll fence 0 s) fence = false.
Proof.
  remember (length s) as n eqn:Hn. revert s Hn.
  induction (lt_wf n) as [n _ IH]. intros s ->.
  rewrite removeAll_unfold by done.
  destruct s as [|c s']; [done|].
  destruct (stripPrefix fence (c :: s')) as [rest|] eqn:E.
  - apply stripPrefix_Some in E. eapply IH; [|done].
    rewrite E, length_drop, length_app. simpl. lia.
  - cbn [includes]. rewrite startsWith_after_removeAll by done.
    simpl. eapply IH; [|done]. simpl. lia.
Qed.

(** X18. Whatever the answer holds, no Markdown fence (three backticks) is
    left in the text once the two replacements have run: deleting a fence
    never brings the pieces of a new one together. *)
Theorem removeCodeBlocks_leaves_no_fence (cleanedResponse : jsstring) :
  includes (removeCodeBlocks cleanedResponse) fence = false.
Proof. apply removeAll_fence_clean. Qed.

Lemma indexOf_spec c s :
  (indexOf c s = (-1)%Z ∧ c ∉ s)
  ∨ (∃ before after, s = before ++ c :: after ∧ (c ∉ before) ∧
                     indexOf c s = Z.of_nat (length before)).
Proof.
  induction s as [|d s IH]; simpl.
  { left. split; [done|]. apply not_elem_of_nil. }
  destruct (N.eqb_spec d c) as [->|Hd].
  { right. exists [], s. split; [done|]. split; [apply not_elem_of_nil|done]. }
  destruct IH as [[-> Hno]|(before & after & -> & Hno & ->)].
  - left. split; [done|]. apply not_elem_of_cons. by split.
  - right. exists (d :: before), after. split; [done|].
    split; [apply not_elem_of_cons; by split|].
    destruct (Z.eqb_spec (Z.of_nat (length before)) (-1)) as [E|_]; [lia|].
    simpl length. lia.
Qed.

Lemma lastIndexOf_spec c s :
  (lastIndexOf c s = (-1)%Z ∧ c ∉ s)
  ∨ (∃ before after, s = before ++ c :: after ∧ (c ∉ after) ∧
                     lastIndexOf c s = Z.of_nat (length before)).
Proof.
  induction s as [|d s IH]; simpl.
  { left. split; [done|]. apply not_elem_of_nil. }
  destruct IH as [[-> Hno]|(before & after & -> & Hno & ->)].
  - simpl. destruct (N.eqb_spec d c) as [->|Hd].
    + right. by exists [], s.
    + left. split; [done|]. apply not_elem_of_cons. by split.
  - right. exists (d :: before), after. split; [done|]. split; [done|].
    destruct (Z.eqb_spec (Z.of_nat (length before)) (-1)) as [E|_]; [lia|].
    simpl length. lia.
Qed.

Lemma indexOf_absent c s : indexOf c s = (-1)%Z ↔ c ∉ s.
Proof.
  destruct (indexOf_spec c s) as [[H Hno]|(b & a & -> & _ & H)].
  - by split.
  - split; [lia|]. intros Hno. exfalso. apply Hno.
    apply elem_of_app. right. apply list_elem_of_here.
Qed.

Lemma lastIndexOf_absent c s : lastIndexOf c s = (-1)%Z ↔ c ∉ s.
Proof.
  destruct (lastIndexOf_spec c s) as [[H Hno]|(b & a & -> & _ & H)].
  - by split.
  - split; [lia|]. intros Hno. exfalso. apply Hno.
    apply elem_of_app. right. apply list_elem_of_here.
Qed.

(** X19. The search for the JSON object fails exactly when the text holds
    no opening brace or no closing brace; the order of the two is not
    looked at. *)
Theorem extractJson_fails_iff (cleanedResponse : jsstring) :
  extractJson cleanedResponse = NoJsonObject ↔
  ch_lbrace ∉ cleanedResponse ∨ ch_rbrace ∉ cleanedResponse.
Proof.
  unfold extractJson.
  rewrite <- indexOf_absent, <- lastIndexOf_absent.
  destruct (Z.eqb_spec (indexOf ch_lbrace cleanedResponse) (-1)) as [E1|E1];
    simpl; [by intuition|].
  destruct (Z.eqb_spec (lastIndexOf ch_rbrace cleanedResponse + 1) 0)
    as [E2|E2]; simpl.
  - split; [|done]. intros _. right. lia.
  - split; [done|]. intros [?|?]; lia.
Qed.

Lemma substring_between (before middle after : jsstring) :
  substring (before ++ middle ++ after)
    (Z.of_nat (length before)) (Z.of_nat (length before + length middle))
  = middle.
Proof.
  unfold substring. rewrite !length_app.
  replace (Z.min (Z.max (Z.of_nat (length before)) 0) _)
    with (Z.of_nat (length before)) by lia.
  replace (Z.min (Z.max (Z.of_nat (length before + length middle)) 0) _)
    with (Z.of_nat (length before + length middle)) by lia.
  replace (Z.to_nat (Z.max _ _ - Z.min _ _)) with (length middle) by lia.
  replace (Z.to_nat (Z.min _ _)) with (length before) by lia.
  by rewrite drop_app_length, take_app_length.
Qed.

Lemma substring_swapped (before middle after : jsstring) :
  substring (before ++ middle ++ after)
    (Z.of_nat (length before + length middle)) (Z.of_nat (length before))
  = middle.
Proof.
  unfold substring. rewrite !length_app.
  replace (Z.min (Z.max (Z.of_nat (length before)) 0) _)
    with (Z.of_nat (length before)) by lia.
  replace (Z.min (Z.max (Z.of_nat (length before + length middle)) 0) _)
    with (Z.of_nat (length before + length middle)) by lia.
  replace (Z.to_nat (Z.max _ _ - Z.min _ _)) with (length middle) by lia.
  replace (Z.to_nat (Z.min _ _)) with (length before) by lia.
  by rewrite drop_app_length, take_app_length.
Qed.

(** X20. What the search cuts out.  When the first opening brace comes
    before the last closing brace, the text cut out runs from the one to
    the other, both included: nothing before it holds an opening brace and
    nothing behind it a closing one.  When the last closing brace comes
    first, [substring] swaps its arguments and the text cut out is what
    lies between the two braces, both excluded: it holds no brace at
    all. *)
Theorem extractJson_shape (cleanedResponse jsonOnly : jsstring) :
  extractJson cleanedResponse = JsonOnly jsonOnly →
  (∃ before middle after,
     cleanedResponse = before ++ jsonOnly ++ after ∧
     jsonOnly = ch_lbrace :: middle ++ [ch_rbrace] ∧
     (ch_lbrace ∉ before) ∧ ch_rbrace ∉ after)
  ∨ (∃ before after,
       cleanedResponse
       = before ++ [ch_rbrace] ++ jsonOnly ++ [ch_lbrace] ++ after ∧
       (ch_lbrace ∉ before ++ [ch_rbrace] ++ jsonOnly) ∧
       ch_rbrace ∉ jsonOnly ++ [ch_lbrace] ++ after).
Proof.
  unfold extractJson.
  destruct (indexOf_spec ch_lbrace cleanedResponse)
    as [[-> _]|(b1 & a1 & Hs1 & Hno1 & ->)]; [done|].
  destruct (lastIndexOf_spec ch_rbrace cleanedResponse)
    as [[-> _]|(b2 & a2 & Hs2 & Hno2 & ->)]; [by rewrite orb_true_r|].
  destruct (Z.eqb_spec (Z.of_nat (length b1)) (-1)) as [|_]; [lia|].
  destruct (Z.eqb_spec (Z.of_nat (length b2) + 1) 0) as [|_]; [lia|].
  simpl. intros [= <-].
  assert (Heq : b1 ++ ch_lbrace :: a1 = b2 ++ ch_rbrace :: a2) by congruence.
  apply app_eq_app in Heq as [l [[H1 H2]|[H1 H2]]].
  - (* the closing brace comes first *)
    destruct l as [|x l].
    { rewrite app_nil_r in H1. simpl in H2. injection H2 as H2 _. done. }
    simpl in H2. injection H2 as <- ->. right. exists b2, a1.
    subst b1.
    assert (Hs : cleanedResponse
                 = b2 ++ [ch_rbrace] ++ l ++ [ch_lbrace] ++ a1).
    { rewrite Hs1. by rewrite <- !app_assoc. }
    assert (Hsub : substring cleanedResponse
                     (Z.of_nat (length (b2 ++ ch_rbrace :: l)))
                     (Z.of_nat (length b2) + 1) = l).
    { replace (Z.of_nat (length (b2 ++ ch_rbrace :: l)))
        with (Z.of_nat (length (b2 ++ [ch_rbrace]) + length l))
        by (rewrite !length_app; simpl; lia).
      replace (Z.of_nat (length b2) + 1)%Z
        with (Z.of_nat (length (b2 ++ [ch_rbrace])))
        by (rewrite length_app; simpl; lia).
      rewrite Hs, (app_assoc b2). apply substring_swapped. }
    rewrite Hsub. by repeat split.
  - (* the opening brace comes first *)
    destruct l as [|x l].
    { rewrite app_nil_r in H1. simpl in H2. injection H2 as H2 _. done. }
    simpl in H2. injection H2 as <- ->. left. exists b1, l, a2.
    subst b2.
    assert (Hs : cleanedResponse
                 = b1 ++ (ch_lbrace :: l ++ [ch_rbrace]) ++ a2).
    { rewrite Hs2. rewrite <- !app_assoc. simpl. by rewrite <- app_assoc. }
    assert (Hsub : substring cleanedResponse (Z.of_nat (length b1))
                     (Z.of_nat (length (b1 ++ ch_lbrace :: l)) + 1)
                   = ch_lbrace :: l ++ [ch_rbrace]).
    { replace (Z.of_nat (length (b1 ++ ch_lbrace :: l)) + 1)%Z
        with (Z.of_nat (length b1 + length (ch_lbrace :: l ++ [ch_rbrace])))
        by (rewrite !length_app; simpl; rewrite length_app; simpl; lia).
      rewrite Hs. by rewrite substring_between. }
    rewrite Hsub. by repeat split.
Qed.

Lemma fixTrailingCommas_sublist s : sublist (fixTrailingCommas s) s.
Proof.
  induction s as [|c s IH]; simpl; [constructor|].
  destruct ((c =? ch_comma)%N && closes s); by constructor.
Qed.

Lemma fixTrailingCommas_fixpoint s :
  fixTrailingCommas s = s ↔ hasTrailingComma s = false.
Proof.
  induction s as [|c s IH]; simpl; [done|].
  destruct ((c =? ch_comma)%N && closes s); simpl.
  - split; [|done]. intros H.
    pose proof (sublist_length _ _ (fixTrailingCommas_sublist s)) as Hlen.
    rewrite H in Hlen. simpl in Hlen. lia.
  - rewrite <- IH. split; [by intros [= ->]|by intros ->].
Qed.

(** X21. The repair of trailing commas deletes commas and nothing else:
    its result is the text without some of its commas, in the same order,
    and the text is left as it is exactly when no comma of it is followed,
    white space apart, by a closing brace or bracket. *)
Theorem fixTrailingCommas_deletes_only_commas (jsonOnly : jsstring) :
  sublist (fixTrailingCommas jsonOnly) jsonOnly ∧
  List.filter (λ c, negb (c =? ch_comma)%N) (fixTrailingCommas jsonOnly)
  = List.filter (λ c, negb (c =? ch_comma)%N) jsonOnly ∧
  (fixTrailingCommas jsonOnly = jsonOnly ↔
   hasTrailingComma jsonOnly = false).
Proof.
  split; [apply fixTrailingCommas_sublist|].
  split; [|apply fixTrailingCommas_fixpoint].
  induction jsonOnly as [|c s IH]; simpl; [done|].
  destruct (N.eqb_spec c ch_comma) as [->|Hc]; simpl.
  - destruct (closes s); simpl; exact IH.
  - destruct (N.eqb_spec c ch_comma) as [|_]; [done|]. simpl. by rewrite IH.
Qed.

Lemma closes_fixTrailingCommas s :
  commaFollows s = false → closes (fixTrailingCommas s) = closes s.
Proof.
  unfold commaFollows, closes.
  induction s as [|c s IH]; simpl; [done|].
  destruct (N.eqb_spec c ch_comma) as [->|Hc]; simpl.
  - done.
  - destruct (isWhiteSpace c) eqn:Ews; [exact IH|].
    destruct (N.eqb_spec c ch_comma) as [|_]; done.
Qed.

(** X22. When no comma of the text is followed, white space apart, by
    another comma, one pass of the repair is enough: in its result no comma
    is followed, white space apart, by a closing brace or bracket. *)
Theorem fixTrailingCommas_leaves_none (jsonOnly : jsstring) :
  hasDoubleComma jsonOnly = false →
  hasTrailingComma (fixTrailingCommas jsonOnly) = false.
Proof.
  induction jsonOnly as [|c s IH]; simpl; [done|].
  intros H. apply orb_false_iff in H as [Hc Hs].
  destruct ((c =? ch_comma)%N && closes s) eqn:E; simpl; [by apply IH|].
  rewrite (IH Hs), orb_false_r.
  destruct (c =? ch_comma)%N; [|done]. simpl in *.
  by rewrite closes_fixTrailingCommas.
Qed.

Lemma removeAll_no_backtick pat s :
  head pat = Some ch_backtick → ch_backtick ∉ s → removeAll pat 0 s = s.
Proof.
  intros Hp. destruct pat as [|p pat]; [done|]. injection Hp as ->.
  induction s as [|c s IH]; [done|]. intros Hs.
  apply not_elem_of_cons in Hs as [Hc Hs].
  rewrite removeAll_unfold by done. cbn [stripPrefix].
  destruct (N.eqb_spec ch_backtick c) as [|_]; [by subst|].
  by rewrite IH.
Qed.

Lemma lastIndexOf_snoc c s :
  lastIndexOf c (s ++ [c]) = Z.of_nat (length s).
Proof.
  induction s as [|d s IH]; simpl.
  - by rewrite N.eqb_refl.
  - rewrite IH.
    destruct (Z.eqb_spec (Z.of_nat (length s)) (-1)) as [|_]; lia.
Qed.

Lemma substring_all s : substring s 0 (Z.of_nat (length s)) = s.
Proof.
  pose proof (substring_between [] s []) as H.
  rewrite app_nil_r in H. exact H.
Qed.

(** X23. A text that is already clean goes through unchanged: when the
    answer starts with an opening brace, ends with a closing brace, holds
    no backtick and no comma in front of a closing brace or bracket, the
    text handed to the parser is the answer itself. *)
Theorem cleanResponse_of_clean_text (jsonResponse : jsstring) :
  head jsonResponse = Some ch_lbrace →
  last jsonResponse = Some ch_rbrace →
  ch_backtick ∉ jsonResponse →
  hasTrailingComma jsonResponse = false →
  cleanResponse jsonResponse = JsonOnly jsonResponse.
Proof.
  intros Hhd Hlast Hbt Hcomma. unfold cleanResponse.
  assert (Htrim : trim jsonResponse = jsonResponse).
  { unfold trim. rewrite (dropWhile_id _ jsonResponse).
    - apply dropWhileEnd_id. intros x. rewrite Hlast. by intros [= <-].
    - intros x. rewrite Hhd. by intros [= <-]. }
  rewrite Htrim. unfold removeCodeBlocks.
  rewrite (removeAll_no_backtick fenceJson jsonResponse),
    (removeAll_no_backtick fence jsonResponse)
    by first [reflexivity|assumption].
  unfold extractJson.
  destruct jsonResponse as [|c s]; [done|]. injection Hhd as ->.
  apply last_Some in Hlast as [l Hl].
  assert (Hend : lastIndexOf ch_rbrace (ch_lbrace :: s)
                 = Z.of_nat (length s)).
  { rewrite Hl, lastIndexOf_snoc.
    apply (f_equal length) in Hl. rewrite length_app in Hl. simpl in Hl. lia. }
  rewrite Hend. cbn [indexOf]. rewrite N.eqb_refl.
  destruct (Z.eqb_spec (Z.of_nat (length s) + 1) 0) as [|_]; [lia|]. simpl orb.
  cbv iota.
  replace (Z.of_nat (length s) + 1)%Z
    with (Z.of_nat (length (ch_lbrace :: s))) by (simpl length; lia).
  rewrite substring_all. f_equal. by apply fixTrailingCommas_fixpoint.
Qed.

Lemma fixQuotes_cons before p1 q rest :
  fixQuotes before (p1 :: q :: rest) =
  if negb (p1 =? ch_backslash)%N && (q =? ch_quote)%N then
    if delimiterBefore before || delimiterAfter (head rest)
    then p1 :: q :: fixQuotes (Some q) rest
    else p1 :: ch_backslash :: q :: fixQuotes (Some q) rest
  else p1 :: fixQuotes (Some p1) (q :: rest).
Proof. reflexivity. Qed.

Lemma fixQuotes_inserts before s :
  sublist s (fixQuotes before s) ∧
  List.filter (λ c, negb (c =? ch_backslash)%N) (fixQuotes before s)
  = List.filter (λ c, negb (c =? ch_backslash)%N) s.
Proof.
  remember (length s) as n eqn:Hn. revert before s Hn.
  induction (lt_wf n) as [n _ IH]. intros before s ->.
  destruct s as [|p1 [|q rest]]; [done|done|].
  rewrite fixQuotes_cons.
  destruct (negb (p1 =? ch_backslash)%N && (q =? ch_quote)%N) eqn:E.
  - destruct (IH (length rest) ltac:(simpl; lia) (Some q) rest eq_refl)
      as [Hsub Hfil].
    destruct (delimiterBefore before || delimiterAfter (head rest)).
    + split; [by do 2 constructor|].
      cbn [List.filter]. by rewrite Hfil.
    + split; [by constructor; constructor; constructor|].
      cbn [List.filter]. rewrite Hfil.
      by rewrite (N.eqb_refl ch_backslash).
  - destruct (IH (length (q :: rest)) ltac:(simpl; lia) (Some p1) (q :: rest)
                eq_refl) as [Hsub Hfil].
    split; [by constructor|].
    change (List.filter ?f (p1 :: ?l))
      with (if f p1 then p1 :: List.filter f l else List.filter f l).
    by rewrite Hfil.
Qed.

(** X24. The repair of unescaped quotes only puts backslashes in: the text
    is what is left of the result once some of its backslashes are taken
    out, and a text without any double quote comes back as it is. *)
Theorem fixQuotes_inserts_only_backslashes (before : option N)
    (jsonOnly : jsstring) :
  sublist jsonOnly (fixQuotes before jsonOnly) ∧
  List.filter (λ c, negb (c =? ch_backslash)%N) (fixQuotes before jsonOnly)
  = List.filter (λ c, negb (c =? ch_backslash)%N) jsonOnly ∧
  (ch_quote ∉ jsonOnly → fixQuotes before jsonOnly = jsonOnly).
Proof.
  destruct (fixQuotes_inserts before jsonOnly) as [Hsub Hfil].
  split; [done|]. split; [done|].
  revert before Hsub Hfil.
  induction jsonOnly as [|p1 s IH]; intros before _ _ Hq; [done|].
  apply not_elem_of_cons in Hq as [Hp Hs].
  destruct s as [|q rest]; [done|].
  rewrite fixQuotes_cons.
  destruct (N.eqb_spec q ch_quote) as [->|_].
  { exfalso. apply Hs. apply list_elem_of_here. }
  rewrite andb_false_r. f_equal.
  destruct (fixQuotes_inserts (Some p1) (q :: rest)) as [Hsub Hfil].
  by apply IH.
Qed.

Lemma extractJson_shape_witness :
  let cleanedResponse := str "Here it is: {a: [1, 2]} Done." in
  let jsonOnly := str "{a: [1, 2]}" in
  extractJson cleanedResponse = JsonOnly jsonOnly ∧
  ((∃ before middle after,
      cleanedResponse = before ++ jsonOnly ++ after ∧
      jsonOnly = ch_lbrace :: middle ++ [ch_rbrace] ∧
      (ch_lbrace ∉ before) ∧ ch_rbrace ∉ after)
   ∨ (∃ before after,
        cleanedResponse
        = before ++ [ch_rbrace] ++ jsonOnly ++ [ch_lbrace] ++ after ∧
        (ch_lbrace ∉ before ++ [ch_rbrace] ++ jsonOnly) ∧
        ch_rbrace ∉ jsonOnly ++ [ch_lbrace] ++ after)).
Proof.
  intros cleanedResponse jsonOnly. split; [vm_compute; reflexivity|].
  apply (extractJson_shape cleanedResponse jsonOnly). vm_compute; reflexivity.
Defined.

Lemma fixTrailingCommas_leaves_none_witness :
  let jsonOnly := str "{a: [1, 2, ], }" in
  hasDoubleComma jsonOnly = false ∧
  hasTrailingComma (fixTrailingCommas jsonOnly) = false.
Proof.
  intros jsonOnly. split; [vm_compute; reflexivity|].
  apply (fixTrailingCommas_leaves_none jsonOnly). vm_compute; reflexivity.
Defined.

Lemma cleanResponse_of_clean_text_witness :
  let jsonResponse := str "{a: [1, 2]}" in
  head jsonResponse = Some ch_lbrace ∧
  last jsonResponse = Some ch_rbrace ∧
  (ch_backtick ∉ jsonResponse) ∧
  hasTrailingComma jsonResponse = false ∧
  cleanResponse jsonResponse = JsonOnly jsonResponse.
Proof.
  intros jsonResponse.
  assert (Hbt : ch_backtick ∉ jsonResponse)
    by (apply (bool_decide_unpack _); vm_compute; exact I).
  split; [reflexivity|]. split; [reflexivity|]. split; [exact Hbt|].
  split; [vm_compute; reflexivity|].
  apply (cleanResponse_of_clean_text jsonResponse);
    [reflexivity|reflexivity|exact Hbt|vm_compute; reflexivity].
Defined.
